(** * Ingestion core of the documentation chatbot: chunker, classifier,
      assembler, crawler and OpenAPI importer.

    The JavaScript sources are embedded shallowly.  Strings are sequences of
    code units; the development restricts code units to the Latin-1 range
    (one [ascii] per code unit), which covers every literal the sources
    compare against.  Numbers that the sources use as sizes and indices are
    integers ([Z]); array positions are [nat]. *)

From Stdlib Require Import ZArith Ascii String List Lia Bool.
From stdpp Require Import base list gmap.

Open Scope Z_scope.

(** ** JavaScript string primitives used by the sources *)

Module JS.

Definition str := list ascii.

(** A source literal. *)
Definition lit (s : string) : str := list_ascii_of_string s.

(** [s.length], for strings and arrays alike. *)
Definition len {A : Type} (s : list A) : Z := Z.of_nat (length s).

(** Truthiness of a string value: only the empty string is falsy. *)
Definition truthy (s : str) : bool :=
  match s with [] => false | _ :: _ => true end.

(** [a || b] on strings. *)
Definition or_else (a b : str) : str := if truthy a then a else b.

(** Resolution of a relative index against a length, as [slice] does. *)
Definition rel_index (n k : Z) : Z :=
  if k <? 0 then Z.max (n + k) 0 else Z.min k n.

(** [s.slice(b, e)], for strings and arrays alike. *)
Definition slice {A : Type} (s : list A) (b e : Z) : list A :=
  let from := rel_index (len s) b in
  let to := rel_index (len s) e in
  take (Z.to_nat (to - from)) (drop (Z.to_nat from) s).

(** [s.slice(b)] *)
Definition slice_from {A : Type} (s : list A) (b : Z) : list A :=
  slice s b (len s).

(** White space and line terminators of the language, within Latin-1:
    TAB, LF, VT, FF, CR, SPACE, NBSP. *)
Definition is_ws (c : ascii) : bool :=
  let n := nat_of_ascii c in
  ((9 <=? n) && (n <=? 13) || (n =? 32) || (n =? 160))%nat.

Fixpoint trimStart (s : str) : str :=
  match s with
  | [] => []
  | c :: s' => if is_ws c then trimStart s' else s
  end.

Definition trimEnd (s : str) : str := rev (trimStart (rev s)).

(** [s.trim()] *)
Definition trim (s : str) : str := trimEnd (trimStart s).

(** Lower-casing of one Latin-1 code unit: A-Z and the accented capitals
    U+00C0..U+00DE (except the multiplication sign U+00D7). *)
Definition lower_char (c : ascii) : ascii :=
  let n := nat_of_ascii c in
  if ((65 <=? n) && (n <=? 90)
      || (192 <=? n) && (n <=? 222) && negb (n =? 215))%nat
  then ascii_of_nat (n + 32) else c.

(** [s.toLowerCase()] *)
Definition toLowerCase (s : str) : str := map lower_char s.

Fixpoint startsWith (s pat : str) {struct pat} : bool :=
  match pat, s with
  | [], _ => true
  | _ :: _, [] => false
  | p :: pat', c :: s' => Ascii.eqb p c && startsWith s' pat'
  end.

(** [s.includes(pat)] *)
Fixpoint includes (s pat : str) : bool :=
  startsWith s pat ||
  match s with
  | [] => false
  | _ :: s' => includes s' pat
  end.

(** [s.endsWith(suf)] *)
Definition endsWith (s suf : str) : bool := startsWith (rev s) (rev suf).

(** Scanner behind [split]: [skip] counts the code units of a separator
    occurrence still to be consumed, [cur] holds the current part in
    reverse. *)
Fixpoint split_scan (sep : str) (skip : nat) (cur : str) (s : str)
  : list str :=
  match s with
  | [] => [rev cur]
  | c :: s' =>
      match skip with
      | S k => split_scan sep k cur s'
      | O =>
          if startsWith s sep
          then rev cur :: split_scan sep (length sep - 1) [] s'
          else split_scan sep 0 (c :: cur) s'
      end
  end.

(** [s.split(sep)] for a string separator; the empty separator splits
    into single code units. *)
Definition split (s sep : str) : list str :=
  match sep with
  | [] => map (fun c => [c]) s
  | _ :: _ => split_scan sep 0 [] s
  end.

(** [s.replace(/c/g, d)] for a one-character pattern and replacement. *)
Definition replaceAllChar (c d : ascii) (s : str) : str :=
  map (fun x => if Ascii.eqb x c then d else x) s.

(** ["A".repeat(n)] *)
Definition repeat (s : str) (n : nat) : str := concat (replicate n s).

End JS.

Import JS.

(** ** Shared constants (packages/shared/src/constants.js) *)

Module CONSTANTS.
Module CHUNKING.
Definition MAX_CHUNK_SIZE : Z := 1000.
Definition OVERLAP : Z := 200.
Definition SEPARATORS : list str :=
  [ [ "010"%char; "010"%char ]; [ "010"%char ]; lit ". "; lit " "; lit "" ].
End CHUNKING.
End CONSTANTS.

(** ** Chunker (processors/chunk-processor.js) *)

(** [TextChunk] and its [metadata]. *)
Module Chunk.
Record Metadata := {
  source : str;
  chunkIndex : nat;
  totalChunks : nat;
  section : option str
}.
Record t := {
  content : str;
  metadata : Metadata
}.
End Chunk.

(** A chunk configuration; an absent field takes the shared default. *)
Record ChunkConfig := {
  maxChunkSize : option Z;
  overlap : option Z;
  separators : option (list str)
}.

Definition emptyConfig : ChunkConfig :=
  {| maxChunkSize := None; overlap := None; separators := None |}.

(** The loop of [forceSplit]:
      [for (let i = 0; i < text.length; i += maxSize) push(text.slice(i, i + maxSize))].
    [fuel] bounds the number of iterations; [None] means the bound was hit
    with the loop condition still true. *)
Fixpoint forceSplit_loop (fuel : nat) (text : str) (maxSize i : Z)
  : option (list str) :=
  if i <? len text then
    match fuel with
    | O => None
    | S fuel' =>
        match forceSplit_loop fuel' text maxSize (i + maxSize) with
        | Some chunks => Some (slice text i (i + maxSize) :: chunks)
        | None => None
        end
    end
  else Some [].

(** [forceSplit(text, maxSize)].  One iteration per code unit is enough
    whenever the loop ends at all, so [None] stands for a call that never
    returns (see [forceSplit_None_iff]). *)
Definition forceSplit (text : str) (maxSize : Z) : option (list str) :=
  forceSplit_loop (length text) text maxSize 0.

(** The [for (const part of parts)] loop of [recursiveSplit] together with
    the final flush; [rec] is the recursive call on the remaining
    separators. *)
Fixpoint splitParts (rec : str -> option (list str)) (separator : str)
    (maxSize : Z) (parts : list str) (result : list str) (currentChunk : str)
  : option (list str) :=
  match parts with
  | [] => Some (if truthy currentChunk then result ++ [currentChunk] else result)
  | part :: parts' =>
      if len currentChunk + len part + len separator <=? maxSize then
        splitParts rec separator maxSize parts' result
          (currentChunk ++ (if truthy currentChunk then separator else []) ++ part)
      else
        let result1 :=
          if truthy currentChunk then result ++ [currentChunk] else result in
        if maxSize <? len part then
          match rec part with
          | Some sub => splitParts rec separator maxSize parts' (result1 ++ sub) []
          | None => None
          end
        else splitParts rec separator maxSize parts' result1 part
  end.

(** [recursiveSplit(text, separators, maxSize)]; the separators come first
    here because the recursion descends on them. *)
Fixpoint recursiveSplit (separators : list str) (text : str) (maxSize : Z)
  {struct separators} : option (list str) :=
  if len text <=? maxSize then Some [text]
  else
    match separators with
    | [] => forceSplit text maxSize
    | separator :: remainingSeparators =>
        if truthy separator then
          splitParts (fun part => recursiveSplit remainingSeparators part maxSize)
            separator maxSize (split text separator) [] []
        else forceSplit text maxSize
    end.

(** Body of the chunk-building loop of [chunkText] at index [i]. *)
Definition chunkAt (splits : list str) (overlap : Z) (i : nat) (seg : str)
  : Chunk.t :=
  let chunkContent :=
    if (0 <? i)%nat && (0 <? overlap) then
      let prevChunk := default [] (splits !! (i - 1)%nat) in
      slice_from prevChunk (- overlap) ++ lit " " ++ seg
    else seg in
  {| Chunk.content := trim chunkContent;
     Chunk.metadata :=
       {| Chunk.source := []; Chunk.chunkIndex := i;
          Chunk.totalChunks := length splits; Chunk.section := None |} |}.

(** The destructuring defaults of [chunkText]. *)
Definition cfgMaxChunkSize (config : ChunkConfig) : Z :=
  default CONSTANTS.CHUNKING.MAX_CHUNK_SIZE (maxChunkSize config).
Definition cfgOverlap (config : ChunkConfig) : Z :=
  default CONSTANTS.CHUNKING.OVERLAP (overlap config).
Definition cfgSeparators (config : ChunkConfig) : list str :=
  default CONSTANTS.CHUNKING.SEPARATORS (separators config).

(** [chunkText(text, config)]; [None] stands for a call that never
    returns. *)
Definition chunkText (text : str) (config : ChunkConfig)
  : option (list Chunk.t) :=
  let maxChunkSize := cfgMaxChunkSize config in
  let overlap := cfgOverlap config in
  let separators := cfgSeparators config in
  if len text <=? maxChunkSize then
    Some [ {| Chunk.content := text;
              Chunk.metadata :=
                {| Chunk.source := []; Chunk.chunkIndex := 0;
                   Chunk.totalChunks := 1; Chunk.section := None |} |} ]
  else
    match recursiveSplit separators text maxChunkSize with
    | Some splits => Some (imap (chunkAt splits overlap) splits)
    | None => None
    end.

(** ** Pages, classifier and assembler (processors/chunk-processor.js) *)

Record Link := { link_url : str; link_text : str }.

Module Page.
(** [page.metadata]; [scrapedAt] is a clock reading. *)
Record Metadata := {
  description : str;
  headings : list str;
  internalLinks : list Link;
  externalLinks : list Link;
  scrapedAt : Z
}.
(** [ScrapedPage] *)
Record t := {
  url : str;
  title : str;
  content : str;
  links : list str;
  metadata : Metadata
}.
End Page.

(** The value returned by [extractMetadata]. *)
Module Meta.
Record t := {
  version : str;
  framework : str;
  docType : str;
  keywords : list str;
  section : str
}.
End Meta.

(** [extractMetadata(page)] *)
Definition extractMetadata (page : Page.t) : Meta.t :=
  let url := toLowerCase (Page.url page) in
  let content := toLowerCase (Page.content page) in
  let version :=
    if includes url (lit "/v3/") || includes url (lit "/3.x/")
    then lit "3.x" else lit "4.x" in
  let framework :=
    if includes url (lit "astro") || includes content (lit "astro")
    then lit "astro"
    else if includes url (lit "vue") || includes content (lit "vue")
    then lit "vue"
    else if includes url (lit "nunjucks")
    then lit "nunjucks"
    else lit "core" in
  let docType :=
    if includes url (lit "/reference/") || includes url (lit "/api/")
    then lit "reference"
    else if includes url (lit "/tutorial/")
    then lit "tutorial"
    else if includes url (lit "/migration/")
    then lit "migration"
    else lit "guide" in
  let keywords :=
    take 10
      (map toLowerCase
         (List.filter (fun h => 0 <? len h)
            (Page.headings (Page.metadata page)))) in
  let section := default (lit "") (head (Page.headings (Page.metadata page))) in
  {| Meta.version := version; Meta.framework := framework;
     Meta.docType := docType; Meta.keywords := keywords;
     Meta.section := section |}.

(** [WeaviateDocument]: the fields the type declares optional are options. *)
Module Doc.
(** The metadata bag: position fields, then the spread page metadata (which
    in this repository never carries a key of the first three names). *)
Record Metadata := {
  section : str;
  chunkIndex : nat;
  totalChunks : nat;
  page : Page.Metadata
}.
Record t := {
  content : str;
  title : str;
  url : str;
  version : option str;
  framework : option str;
  docType : str;
  keywords : option (list str);
  metadata : option Metadata
}.
End Doc.

(** The document pushed for one chunk of one page. *)
Definition documentOf (page : Page.t) (metadata : Meta.t) (chunk : Chunk.t)
  : Doc.t :=
  {| Doc.content := Chunk.content chunk;
     Doc.title := Page.title page;
     Doc.url := Page.url page;
     Doc.version := Some (Meta.version metadata);
     Doc.framework := Some (Meta.framework metadata);
     Doc.docType := Meta.docType metadata;
     Doc.keywords := Some (Meta.keywords metadata);
     Doc.metadata := Some
       {| Doc.section :=
            or_else (default (lit "") (Chunk.section (Chunk.metadata chunk)))
                    (Meta.section metadata);
          Doc.chunkIndex := Chunk.chunkIndex (Chunk.metadata chunk);
          Doc.totalChunks := Chunk.totalChunks (Chunk.metadata chunk);
          Doc.page := Page.metadata page |} |}.

(** [processScrapedPages(pages, chunkConfig)]; an absent configuration is
    the empty one. *)
Fixpoint processScrapedPages (pages : list Page.t)
    (chunkConfig : option ChunkConfig) : option (list Doc.t) :=
  match pages with
  | [] => Some []
  | page :: pages' =>
      let metadata := extractMetadata page in
      match chunkText (Page.content page) (default emptyConfig chunkConfig) with
      | Some chunks =>
          match processScrapedPages pages' chunkConfig with
          | Some documents => Some (map (documentOf page metadata) chunks ++ documents)
          | None => None
          end
      | None => None
      end
  end.

(** ** Storage sink boundary (weaviate/client.js) *)

(** The [properties] of one object given to the batcher; [lastUpdated] is a
    clock reading. *)
Module SinkObject.
Record t := {
  content : str;
  title : str;
  url : str;
  version : str;
  framework : str;
  docType : str;
  keywords : list str;
  section : str;
  lastUpdated : Z
}.
End SinkObject.

(** The objects [batchImport(documents)] adds to the batcher, in order,
    before it calls the sink's [do()]. *)
Definition batchImport_objects (now : Z) (documents : list Doc.t)
  : list SinkObject.t :=
  map (fun doc =>
         {| SinkObject.content := Doc.content doc;
            SinkObject.title := Doc.title doc;
            SinkObject.url := Doc.url doc;
            SinkObject.version := or_else (default [] (Doc.version doc)) (lit "4.x");
            SinkObject.framework := or_else (default [] (Doc.framework doc)) (lit "core");
            SinkObject.docType := Doc.docType doc;
            SinkObject.keywords := default [] (Doc.keywords doc);
            SinkObject.section :=
              or_else (default [] (Doc.section <$> Doc.metadata doc)) (lit "");
            SinkObject.lastUpdated := now |})
      documents.

(** ** Crawler (scrapers/playwright-scraper.js) *)

Module Crawler.

(** What [fetch(url)] does: it raises on a network-level failure and
    otherwise yields a response with its [ok] flag, status and body. *)
Inductive FetchOutcome :=
| NetworkError
| Response (ok : bool) (status : Z) (body : str).

(** What rendering one page yields inside [scrapePage]: an exception
    somewhere in the [try] block (navigation failure, timeout, evaluation
    error), or the data read from the rendered document.  [region] is the
    converted markup of the first content selector that matched, if any. *)
Inductive PageOutcome :=
| Failed
| Rendered (title : str) (region : option str)
    (internalLinks externalLinks : list Link)
    (description : str) (headings : list str) (scrapedAt : Z).

(** The world outside the crawler: the platform's URL parser ([None] when
    [new URL] raises, otherwise the host name), the network, and the page
    renderer, which may answer differently at each call of a run.  The
    browser itself is taken to start and close without error. *)
Record World := {
  hostnameOf : str -> option str;
  fetch : str -> FetchOutcome;
  render : nat -> str -> PageOutcome
}.

(** [ScraperConfig], as given by the caller. *)
Record ScraperConfig := {
  baseUrl : str;
  sitemapUrl : option str;
  maxDepth : option Z;
  maxPages : option Z;
  allowedDomains : option (list str);
  excludePatterns : option (list str);
  delayMs : option Z;
  respectRobotsTxt : option bool
}.

(** The state of a [PlaywrightScraper] object. *)
Record Scraper := {
  config : ScraperConfig;
  visited : gset str;
  results : list Page.t
}.

(** The constructor; the defaults it merges under the given configuration
    are read through the accessors below. *)
Definition new (config : ScraperConfig) : Scraper :=
  {| config := config; visited := ∅; results := [] |}.

Definition cfgMaxPages (config : ScraperConfig) : Z := default 500 (maxPages config).

(** A completed call: a returned value or a raised error. *)
Inductive Completion (A : Type) :=
| Returned (value : A)
| Threw.
Arguments Returned {A} value.
Arguments Threw {A}.

(** [shouldScrape(url)] *)
Definition shouldScrape (w : World) (self : Scraper) (url : str) : bool :=
  match hostnameOf w url with
  | None => false
  | Some hostname =>
      if bool_decide (url ∈ visited self) then false
      else if
        match allowedDomains (config self) with
        | Some domains =>
            (0 <? len domains) &&
            negb (existsb (fun domain =>
                             bool_decide (hostname = domain)
                             || endsWith hostname (lit "." ++ domain))
                          domains)
        | None => false
        end
      then false
      else if
        match excludePatterns (config self) with
        | Some patterns => existsb (fun pattern => includes url pattern) patterns
        | None => false
        end
      then false
      else true
  end.

(** [scrapePage(page, url)], the [n]-th page task of the run: the returned
    page ([None] for [null]) and the scraper afterwards. *)
Definition scrapePage (w : World) (self : Scraper) (n : nat) (url : str)
  : option Page.t * Scraper :=
  match render w n url with
  | Failed => (None, self)
  | Rendered title region internalLinks externalLinks description headings scrapedAt =>
      let content := default (lit "") region in
      (Some {| Page.url := url;
               Page.title := title;
               Page.content := content;
               Page.links := map link_url internalLinks;
               Page.metadata :=
                 {| Page.description := description;
                    Page.headings := headings;
                    Page.internalLinks := internalLinks;
                    Page.externalLinks := externalLinks;
                    Page.scrapedAt := scrapedAt |} |},
       {| config := config self;
          visited := {[ url ]} ∪ visited self;
          results := results self |})
  end.

Definition is_line_terminator (c : ascii) : bool :=
  let n := nat_of_ascii c in ((n =? 10) || (n =? 13))%nat.

(** The lazy [(.*?)] followed by the closing tag: the captured text, when
    the closing tag is reached before a line terminator or the end. *)
Fixpoint lazyUntil (close : str) (s : str) (captured : str) : option str :=
  if startsWith s close then Some (rev captured)
  else
    match s with
    | [] => None
    | c :: s' =>
        if is_line_terminator c then None
        else lazyUntil close s' (c :: captured)
    end.

(** The [while (locRegex.exec(xml))] loop over [/<loc>(.*?)<\/loc>/g];
    [skip] counts the code units of the last match still to be passed. *)
Fixpoint locScan (skip : nat) (xml : str) : list str :=
  match xml with
  | [] => []
  | _ :: xml' =>
      match skip with
      | S k => locScan k xml'
      | O =>
          if startsWith xml (lit "<loc>") then
            match lazyUntil (lit "</loc>") (drop 5 xml) [] with
            | Some captured =>
                captured :: locScan (5 + length captured + 6 - 1) xml'
            | None => locScan 0 xml'
            end
          else locScan 0 xml'
      end
  end.

(** [fetchSitemap(sitemapUrl)]: the response is read whatever its status. *)
Definition fetchSitemap (w : World) (sitemapUrl : str)
  : Completion (list str) :=
  match fetch w sitemapUrl with
  | NetworkError => Threw
  | Response _ _ xml => Returned (locScan 0 xml)
  end.

(** The [for (const url of urls)] loop of [scrape], from task number [n]. *)
Fixpoint scrapeEach (w : World) (self : Scraper) (n : nat) (urls : list str)
  : Scraper :=
  match urls with
  | [] => self
  | url :: urls' =>
      let '(result, self1) := scrapePage w self n url in
      let self2 :=
        match result with
        | Some page =>
            {| config := config self1; visited := visited self1;
               results := results self1 ++ [page] |}
        | None => self1
        end in
      scrapeEach w self2 (S n) urls'
  end.

(** The sitemap address [scrape] uses. *)
Definition sitemapAddress (config : ScraperConfig) : str :=
  or_else (default [] (sitemapUrl config)) (baseUrl config ++ lit "/sitemap.xml").

(** The URLs [scrape] goes through, given the sitemap entries: filtered,
    then cut to [maxPages]. *)
Definition scheduled (w : World) (self : Scraper) (urls : list str) : list str :=
  let urls := List.filter (shouldScrape w self) urls in
  if cfgMaxPages (config self) <? len urls
  then slice urls 0 (cfgMaxPages (config self))
  else urls.

(** [scrape()]: the completion and the scraper afterwards. *)
Definition scrape (w : World) (self : Scraper)
  : Completion (list Page.t) * Scraper :=
  match fetchSitemap w (sitemapAddress (config self)) with
  | Threw => (Threw, self)
  | Returned urls =>
      let self' := scrapeEach w self 0 (scheduled w self urls) in
      (Returned (results self'), self')
  end.

(** The page a task contributes to the results, by its outcome. *)
Definition emitted (w : World) (self : Scraper) (n : nat) (url : str)
  : option Page.t :=
  fst (scrapePage w self n url).

(** [scrapeDocumentation(config)] *)
Definition scrapeDocumentation (w : World) (config : ScraperConfig)
  : Completion (list Page.t) :=
  fst (scrape w (new config)).

End Crawler.

(** ** OpenAPI importer (processors/openapi-processor.js) *)

Module OpenAPI.

(** The keys of a path item that denote operations. *)
Definition OPERATION_KEYS : list str :=
  [ lit "get"; lit "post"; lit "put"; lit "patch"; lit "delete";
    lit "options"; lit "head" ].

(** The [url] of the page [createInfoPage] builds. *)
Definition infoPageUrl (source : str) : str := source ++ lit "#info".

(** The [url] of the page [createOperationPage] builds. *)
Definition operationPageUrl (source path method : str) : str :=
  source ++ lit "#" ++ method ++ lit "-" ++ replaceAllChar "/" "-" path.

(** The [url] of the page [createSchemaPage] builds. *)
Definition schemaPageUrl (source schemaName : str) : str :=
  source ++ lit "#schema-" ++ schemaName.

(** The part of a parsed specification that decides which pages exist:
    whether [info] is present, the path items with the keys of each in
    order, and the names under [components.schemas].  Keys of one object
    are pairwise distinct. *)
Record Spec := {
  hasInfo : bool;
  paths : list (str * list str);
  schemas : list str
}.

(** The [url]s of the pages [processOpenAPISpec] returns, in order. *)
Definition pageUrls (source : str) (spec : Spec) : list str :=
  (if hasInfo spec then [infoPageUrl source] else [])
  ++ flat_map (fun '(path, keys) =>
                 map (operationPageUrl source path)
                     (List.filter (fun method =>
                                     bool_decide (method ∈ OPERATION_KEYS))
                                  keys))
              (paths spec)
  ++ map (schemaPageUrl source) (schemas spec).

End OpenAPI.

(** ** Values used in the scenarios below *)

Module Scenario.
Import Crawler.

Definition plainConfig : ScraperConfig :=
  {| baseUrl := lit "https://docs.example.com";
     sitemapUrl := None; maxDepth := None; maxPages := None;
     allowedDomains := None; excludePatterns := None;
     delayMs := None; respectRobotsTxt := None |}.

(** A page that renders, with or without a content region. *)
Definition rendered (region : option str) : PageOutcome :=
  Rendered (lit "Title") region [] [] (lit "") [] 0.

(** The page [scrapePage] returns for [rendered]. *)
Definition pageAt (url : str) (content : str) : Page.t :=
  {| Page.url := url; Page.title := lit "Title"; Page.content := content;
     Page.links := [];
     Page.metadata :=
       {| Page.description := lit ""; Page.headings := [];
          Page.internalLinks := []; Page.externalLinks := [];
          Page.scrapedAt := 0 |} |}.

(** A URL parser that accepts every string. *)
Definition anyHost : str -> option str :=
  fun _ => Some (lit "docs.example.com").

Definition urlA : str := lit "https://docs.example.com/a".
Definition urlB : str := lit "https://docs.example.com/b".
Definition urlC : str := lit "https://docs.example.com/c".

(** A sitemap that lists the same location twice. *)
Definition duplicateSitemap : str :=
  lit "<urlset><url><loc>https://docs.example.com/a</loc></url><url><loc>https://docs.example.com/a</loc></url></urlset>".

(** A sitemap with three distinct locations. *)
Definition threeSitemap : str :=
  lit "<urlset><url><loc>https://docs.example.com/a</loc></url><url><loc>https://docs.example.com/b</loc></url><url><loc>https://docs.example.com/c</loc></url></urlset>".

Definition duplicateWorld : World :=
  {| hostnameOf := anyHost;
     fetch := fun _ => Response true 200 duplicateSitemap;
     render := fun _ _ => rendered (Some (lit "text")) |}.

(** The sitemap address answers 404 with an error page. *)
Definition notFoundWorld : World :=
  {| hostnameOf := anyHost;
     fetch := fun _ => Response false 404 (lit "<html><body>Not Found</body></html>");
     render := fun _ _ => rendered (Some (lit "text")) |}.

(** Page [b] fails to load, page [c] has no content region. *)
Definition mixedWorld : World :=
  {| hostnameOf := anyHost;
     fetch := fun _ => Response true 200 threeSitemap;
     render := fun _ url =>
       if bool_decide (url = urlB) then Failed
       else if bool_decide (url = urlC) then rendered None
       else rendered (Some (lit "text")) |}.

End Scenario.

(** ** Notions used to state the properties *)

(** [pat] occurs in [s]. *)
Definition Contains (s pat : str) : Prop :=
  exists pre post, s = pre ++ pat ++ post.

(** The framework rule read on the URL and the content as they are given,
    without lower-casing: the rule as the specification words it. *)
Definition frameworkAsWorded (url content : str) : str :=
  if includes url (lit "astro") || includes content (lit "astro")
  then lit "astro"
  else if includes url (lit "vue") || includes content (lit "vue")
  then lit "vue"
  else if includes url (lit "nunjucks")
  then lit "nunjucks"
  else lit "core".

(** The values the classifier can give to each field. *)
Definition VERSIONS : list str := [ lit "3.x"; lit "4.x" ].
Definition FRAMEWORKS : list str :=
  [ lit "astro"; lit "vue"; lit "nunjucks"; lit "core" ].
Definition DOC_TYPES : list str :=
  [ lit "reference"; lit "tutorial"; lit "migration"; lit "guide" ].

(** An object whose classification fields are filled in. *)
Definition classified (o : SinkObject.t) : Prop :=
  In (SinkObject.version o) VERSIONS /\
  In (SinkObject.framework o) FRAMEWORKS /\
  In (SinkObject.docType o) DOC_TYPES /\
  (length (SinkObject.keywords o) <= 10)%nat /\
  Forall (fun k => k <> []) (SinkObject.keywords o).

(** An object that carries what the classifier says of [page]: the URL and
    title of the page and the four classification values. *)
Definition classifiedAs (page : Page.t) (o : SinkObject.t) : Prop :=
  SinkObject.url o = Page.url page /\
  SinkObject.title o = Page.title page /\
  SinkObject.version o = Meta.version (extractMetadata page) /\
  SinkObject.framework o = Meta.framework (extractMetadata page) /\
  SinkObject.docType o = Meta.docType (extractMetadata page) /\
  SinkObject.keywords o = Meta.keywords (extractMetadata page).

(** A segment respects the size bound. *)
Definition within (maxSize : Z) (s : str) : Prop := len s <= maxSize.

(** ** Dump splitter (processors/llms-full-processor.js) *)

Module LLMs.

(** The characters the class [[a-z0-9\s-]] accepts. *)
Definition isSlugSource (c : ascii) : bool :=
  let n := nat_of_ascii c in
  ((97 <=? n) && (n <=? 122) || (48 <=? n) && (n <=? 57))%nat
  || is_ws c || Ascii.eqb c "-".

(** [s.replace(/p+/g, d)] for a character class [p] and a one-character
    replacement: every maximal run of [p] becomes one [d]; [inRun] tells
    that the previous character belonged to a run. *)
Fixpoint replaceRuns (p : ascii -> bool) (d : ascii) (inRun : bool) (s : str)
  : str :=
  match s with
  | [] => []
  | c :: s' =>
      if p c then
        if inRun then replaceRuns p d true s'
        else d :: replaceRuns p d true s'
      else c :: replaceRuns p d false s'
  end.

(** [titleToSlug(title)] *)
Definition titleToSlug (title : str) : str :=
  trim
    (replaceRuns (fun c => Ascii.eqb c "-") "-" false
       (replaceRuns is_ws "-" false
          (List.filter isSlugSource (toLowerCase title)))).

End LLMs.

(** ** Environment access (shared/src/constants.js) *)

Module Env.

(** [requireEnv(name, defaultValue)] over the environment [env]. *)
Definition requireEnv (env : gmap str str) (name : str)
    (defaultValue : option str) : Crawler.Completion str :=
  let value :=
    or_else (default [] (env !! name)) (default [] defaultValue) in
  if truthy value then Crawler.Returned value else Crawler.Threw.

End Env.

(** ** Storage client (weaviate/client.js) *)

Module WeaviateClient.

(** The configuration [initialize] builds from its arguments. *)
Record ClientConfig := {
  scheme : str;
  host : str;
  apiKey : option str
}.

(** [url.replace(/^https?:\/\//, '')] *)
Definition stripScheme (url : str) : str :=
  if startsWith url (lit "http://") then drop 7 url
  else if startsWith url (lit "https://") then drop 8 url
  else url.

Definition clientConfig (url : str) (apiKey : option str) : ClientConfig :=
  {| scheme := if startsWith url (lit "https") then lit "https" else lit "http";
     host := stripScheme url;
     apiKey := match apiKey with
               | Some key => if truthy key then Some key else None
               | None => None
               end |}.

(** The state of the client object. *)
Record Client := {
  client : option ClientConfig;
  initialized : bool
}.

(** The exported instance, before any call. *)
Definition fresh : Client := {| client := None; initialized := false |}.

(** What the storage service does for a client: whether the connection
    test and the schema set-up go through, and what a batch returns
    ([None] when the request raises, otherwise for each object whether
    it was reported with errors).  [builds] says whether the library
    builds a client object for a configuration ([new weaviate.ApiKey]
    and [weaviate.client(clientConfig)] return) or raises. *)
Record Service := {
  builds : ClientConfig -> bool;
  connects : ClientConfig -> bool;
  schemaReady : ClientConfig -> bool;
  runBatch : ClientConfig -> list SinkObject.t -> option (list bool)
}.

(** [initialize(url, apiKey)] *)
Definition initialize (service : Service) (self : Client) (url : str)
    (key : option str) : Crawler.Completion unit * Client :=
  if initialized self then (Crawler.Returned tt, self)
  else
    let config := clientConfig url key in
    if builds service config then
      let self1 := {| client := Some config; initialized := false |} in
      if connects service config && schemaReady service config
      then (Crawler.Returned tt, {| client := Some config; initialized := true |})
      else (Crawler.Threw, self1)
    else (Crawler.Threw, self).

(** [getClient()] *)
Definition getClient (self : Client) : Crawler.Completion ClientConfig :=
  match client self with
  | Some config => Crawler.Returned config
  | None => Crawler.Threw
  end.

(** What [batchImport] logs when the request goes through. *)
Inductive ImportLog :=
| Imported (count : nat)
| HadErrors (count : nat).

(** [batchImport(documents)] *)
Definition batchImport (service : Service) (self : Client) (now : Z)
    (documents : list Doc.t) : Crawler.Completion ImportLog :=
  match getClient self with
  | Crawler.Threw => Crawler.Threw
  | Crawler.Returned config =>
      match runBatch service config (batchImport_objects now documents) with
      | None => Crawler.Threw
      | Some result =>
          let errors := List.filter (fun r => r) result in
          if 0 <? len errors
          then Crawler.Returned (HadErrors (length errors))
          else Crawler.Returned (Imported (length documents))
      end
  end.

End WeaviateClient.

(** ** Further notions used to state properties of the chunker *)

(** [parts.join(sep)] *)
Fixpoint join (sep : str) (parts : list str) : str :=
  match parts with
  | [] => []
  | part :: rest =>
      match rest with
      | [] => part
      | _ :: _ => part ++ sep ++ join sep rest
      end
  end.

(** [Restores separators segs text]: the text is the segments, in order,
    with nothing but separators of the list before, between and after
    them. *)
Inductive Restores (separators : list str) : list str -> str -> Prop :=
| restores_nil : Restores separators [] []
| restores_segment (seg : str) (segs : list str) (text : str) :
    Restores separators segs text ->
    Restores separators (seg :: segs) (seg ++ text)
| restores_separator (sep : str) (segs : list str) (text : str) :
    In sep separators ->
    Restores separators segs text ->
    Restores separators segs (sep ++ text).

(** The [k]-th window of width [maxSize] of a text. *)
Definition window (text : str) (maxSize : Z) (k : nat) : str :=
  take (Z.to_nat maxSize) (drop (k * Z.to_nat maxSize) text).

(** A text without white space at either end. *)
Definition trimmed (s : str) : Prop := trim s = s.

(** ** Further notions used to state properties of classifier and assembler *)

(** A page with its URL and content in lower case. *)
Definition lowerCased (page : Page.t) : Page.t :=
  {| Page.url := toLowerCase (Page.url page);
     Page.title := Page.title page;
     Page.content := toLowerCase (Page.content page);
     Page.links := Page.links page;
     Page.metadata := Page.metadata page |}.

(** The documents of one page, as the body of the loop of
    [processScrapedPages] builds them. *)
Definition pageDocuments (page : Page.t) (chunkConfig : option ChunkConfig)
  : option (list Doc.t) :=
  match chunkText (Page.content page) (default emptyConfig chunkConfig) with
  | Some chunks => Some (map (documentOf page (extractMetadata page)) chunks)
  | None => None
  end.

(** The documents of one page carry its URL, title and first heading, and
    are numbered 0, 1, ... with the count of the page's documents. *)
Definition documentsOfPage (page : Page.t) (group : list Doc.t) : Prop :=
  Forall (fun doc =>
            Doc.url doc = Page.url page /\
            Doc.title doc = Page.title page /\
            Doc.section <$> Doc.metadata doc
              = Some (default (lit "") (head (Page.headings (Page.metadata page)))) /\
            Doc.totalChunks <$> Doc.metadata doc = Some (length group))
         group /\
  map (fun doc => Doc.chunkIndex <$> Doc.metadata doc) group
    = map Some (seq 0 (length group)).

(** ** Further notions used to state properties of the crawler *)

(** The host passes the allow-list: there is none, or it is empty, or the
    host is one of its domains or a subdomain of one. *)
Definition hostAllowed (config : Crawler.ScraperConfig) (hostname : str) : Prop :=
  match Crawler.allowedDomains config with
  | Some (d :: ds) =>
      exists domain, In domain (d :: ds) /\
        (hostname = domain \/ exists sub, hostname = sub ++ lit "." ++ domain)
  | _ => True
  end.

(** No exclude pattern occurs in the URL. *)
Definition notExcluded (config : Crawler.ScraperConfig) (url : str) : Prop :=
  match Crawler.excludePatterns config with
  | Some patterns => forall pattern, In pattern patterns -> ~ Contains url pattern
  | None => True
  end.

(** The URL parses, was not visited, and passes both lists. *)
Definition eligible (w : Crawler.World) (self : Crawler.Scraper) (url : str)
  : Prop :=
  exists hostname,
    Crawler.hostnameOf w url = Some hostname /\
    (url ∉ Crawler.visited self) /\
    hostAllowed (Crawler.config self) hostname /\
    notExcluded (Crawler.config self) url.

(** The pages the loop of [scrape] appends while it goes through [urls],
    from task number [n]. *)
Definition newPages (w : Crawler.World) (self : Crawler.Scraper) (n : nat)
    (urls : list str) : list Page.t :=
  omap id (imap (fun i url => Crawler.emitted w self (n + i) url) urls).

(** A sitemap document in the usual layout, one [url] element for each
    location. *)
Definition sitemapXml (urls : list str) : str :=
  lit "<urlset>"
  ++ concat (map (fun url => lit "<url><loc>" ++ url ++ lit "</loc></url>") urls)
  ++ lit "</urlset>".

(** A text that can stand between the tags of a location: one line, no
    opening angle bracket. *)
Definition plainLocation (url : str) : Prop :=
  Forall (fun c => Crawler.is_line_terminator c = false /\ c <> "<"%char) url.

(** ** The ingestion pipeline (ingestion/src/index.js) *)

Module Pipeline.

(** The configuration [main] gives to [scrapeDocumentation] for the
    ApostropheCMS documentation; [baseUrl] comes from the environment. *)
Definition aposConfig (baseUrl : str) : Crawler.ScraperConfig :=
  {| Crawler.baseUrl := baseUrl;
     Crawler.sitemapUrl := None;
     Crawler.maxDepth := Some 3;
     Crawler.maxPages := Some 500;
     Crawler.allowedDomains :=
       Some [ lit "apostrophecms.com/docs"; lit "docs.apostrophecms.org" ];
     Crawler.excludePatterns :=
       Some [ lit "/search"; lit "/api-examples"; lit "/markdown-examples";
              lit "/404" ];
     Crawler.delayMs := Some 100;
     Crawler.respectRobotsTxt := None |}.

End Pipeline.

(** ** Further notions used to state properties of the importer *)

(** The operations of a specification that get a page: path and method, in
    the order of [processOpenAPISpec]. *)
Definition operationUnits (spec : OpenAPI.Spec) : list (str * str) :=
  flat_map (fun '(path, keys) =>
              map (pair path)
                  (List.filter (fun method =>
                                  bool_decide (method ∈ OpenAPI.OPERATION_KEYS))
                               keys))
           (OpenAPI.paths spec).

(** No two path items under one path, no key twice in a path item, no
    hyphen in a path, no schema name twice. *)
Definition hyphenFreeSpec (spec : OpenAPI.Spec) : Prop :=
  NoDup (map fst (OpenAPI.paths spec)) /\
  Forall (fun item => NoDup (snd item) /\ ~ In "-"%char (fst item))
         (OpenAPI.paths spec) /\
  NoDup (OpenAPI.schemas spec).

(** ** Further notions used to state properties of the dump splitter *)

(** A lower-case letter, a digit or a hyphen. *)
Definition isSlugChar (c : ascii) : bool :=
  let n := nat_of_ascii c in
  ((97 <=? n) && (n <=? 122) || (48 <=? n) && (n <=? 57))%nat
  || Ascii.eqb c "-".

(** ** Proof automation *)

(** Case analysis on every conditional of the goal. *)
Ltac case_ifs :=
  repeat match goal with
         | |- context [if ?b then _ else _] => destruct b
         end.

(** * Properties *)

(** ** The primitives on small inputs *)

Example split_keeps_empty_parts :
  split (lit "a,b,,c,") (lit ",") = [lit "a"; lit "b"; lit ""; lit "c"; lit ""].
Proof. reflexivity. Qed.

Example split_leftmost_occurrences :
  split (lit "aXXXb") (lit "XX") = [lit "a"; lit "Xb"].
Proof. reflexivity. Qed.

Example split_of_empty_text : split (lit "") (lit ",") = [lit ""].
Proof. reflexivity. Qed.

Example slice_negative_start : slice_from (lit "abcdef") (-2) = lit "ef".
Proof. reflexivity. Qed.

Example slice_past_the_end : slice (lit "abcdef") 4 10 = lit "ef".
Proof. reflexivity. Qed.

Example trim_both_ends : trim (lit "  a b  ") = lit "a b".
Proof. reflexivity. Qed.

Example toLowerCase_letters_only :
  toLowerCase (lit "V3/Astro@[") = lit "v3/astro@[".
Proof. reflexivity. Qed.

Example locScan_is_lazy_and_stays_on_one_line :
  Crawler.locScan 0
    (lit "<loc>a" ++ [ "010"%char ] ++ lit "b</loc><loc>c</loc><loc><loc>d</loc>")
  = [lit "c"; lit "<loc>d"].
Proof. reflexivity. Qed.

Example recursiveSplit_on_spaces :
  recursiveSplit CONSTANTS.CHUNKING.SEPARATORS (lit "hello world foo") 5
  = Some [lit "hello"; lit "world"; lit "foo"].
Proof. reflexivity. Qed.

Example recursiveSplit_packs_parts :
  recursiveSplit CONSTANTS.CHUNKING.SEPARATORS (lit "a b c d e") 3
  = Some [lit "a b"; lit "c d"; lit "e"].
Proof. reflexivity. Qed.

Example chunkText_overlap_prefix :
  option_map (map Chunk.content)
    (chunkText (lit "hello world foo")
       {| maxChunkSize := Some 5; overlap := Some 2; separators := None |})
  = Some [lit "hello"; lit "lo world"; lit "ld foo"].
Proof. reflexivity. Qed.

(** ** String primitives *)

Section StringFacts.

Lemma len_nonneg (s : str) : 0 <= len s.
Proof. unfold len. lia. Qed.

Lemma len_app (s t : str) : len (s ++ t) = len s + len t.
Proof. unfold len. rewrite length_app. lia. Qed.

(** A window of width [m] taken at a non-negative position holds at most
    [m] code units. *)
Lemma slice_window_len (s : str) (i m : Z) :
  0 <= i -> 0 <= m -> len (slice s i (i + m)) <= m.
Proof.
  intros Hi Hm. unfold slice, rel_index.
  pose proof (len_nonneg s) as Hn.
  destruct (Z.ltb_spec i 0); [lia |].
  destruct (Z.ltb_spec (i + m) 0); [lia |].
  unfold len at 1. rewrite length_take. lia.
Qed.

(** The tail taken by [slice(-o)] holds at most [o] code units. *)
Lemma slice_tail_len (s : str) (o : Z) :
  0 < o -> len (slice_from s (- o)) <= o.
Proof.
  intros Ho. unfold slice_from, slice, rel_index.
  pose proof (len_nonneg s) as Hn.
  destruct (Z.ltb_spec (- o) 0); [| lia].
  destruct (Z.ltb_spec (len s) 0); [lia |].
  unfold len at 1. rewrite length_take. lia.
Qed.

Lemma trimStart_length (s : str) : (length (trimStart s) <= length s)%nat.
Proof.
  induction s as [| c s IH]; simpl; [lia |].
  destruct (is_ws c); simpl; lia.
Qed.

Lemma trim_len (s : str) : len (trim s) <= len s.
Proof.
  unfold trim, trimEnd, len.
  rewrite length_rev.
  pose proof (trimStart_length (rev (trimStart s))) as H1.
  rewrite length_rev in H1.
  pose proof (trimStart_length s). lia.
Qed.

End StringFacts.

(** ** The forced split: when it ends and what it yields *)

Section ForceSplit.

(** With a step that is not positive the index never passes the end of a
    non-empty text: no bound on the iterations is enough. *)
Lemma forceSplit_loop_diverges (text : str) (maxSize i : Z) (fuel : nat) :
  maxSize <= 0 -> i <= 0 -> text <> [] ->
  forceSplit_loop fuel text maxSize i = None.
Proof.
  intros Hm Hi Ht. revert i Hi.
  assert (0 < len text) as Hlen.
  { unfold len. destruct text; [congruence | simpl; lia]. }
  induction fuel as [| fuel IH]; intros i Hi; simpl.
  - destruct (Z.ltb_spec i (len text)); [reflexivity | lia].
  - destruct (Z.ltb_spec i (len text)); [| lia].
    rewrite IH by lia. reflexivity.
Qed.

(** A result obtained within some bound is the result for every larger
    bound. *)
Lemma forceSplit_loop_fuel_mono (text : str) (maxSize : Z) (fuel : nat) :
  forall i chunks,
    forceSplit_loop fuel text maxSize i = Some chunks ->
    forceSplit_loop (S fuel) text maxSize i = Some chunks.
Proof.
  induction fuel as [| fuel IH]; intros i chunks H.
  - simpl in H. simpl.
    destruct (i <? len text); [discriminate | assumption].
  - simpl in H.
    change (forceSplit_loop (S (S fuel)) text maxSize i)
      with (if i <? len text
            then match forceSplit_loop (S fuel) text maxSize (i + maxSize) with
                 | Some c => Some (slice text i (i + maxSize) :: c)
                 | None => None
                 end
            else Some []).
    destruct (i <? len text); [| assumption].
    destruct (forceSplit_loop fuel text maxSize (i + maxSize)) as [c |] eqn:E;
      [| discriminate].
    rewrite (IH _ _ E). assumption.
Qed.

Lemma forceSplit_loop_total (text : str) (maxSize : Z) (fuel : nat) :
  1 <= maxSize ->
  forall i, 0 <= i -> len text - i <= Z.of_nat fuel ->
    exists chunks,
      forceSplit_loop fuel text maxSize i = Some chunks /\
      Forall (within maxSize) chunks.
Proof.
  intros Hm. induction fuel as [| fuel IH]; intros i Hi Hf; simpl.
  - destruct (Z.ltb_spec i (len text)); [lia |].
    exists []. split; [reflexivity | constructor].
  - destruct (Z.ltb_spec i (len text)).
    + destruct (IH (i + maxSize)) as (c & -> & Hc); [lia | lia |].
      eexists. split; [reflexivity |].
      constructor; [| assumption].
      apply slice_window_len; lia.
    + exists []. split; [reflexivity | constructor].
Qed.

Lemma forceSplit_total (text : str) (maxSize : Z) :
  1 <= maxSize ->
  exists chunks,
    forceSplit text maxSize = Some chunks /\ Forall (within maxSize) chunks.
Proof.
  intros Hm. apply forceSplit_loop_total; [assumption | lia |].
  unfold len. lia.
Qed.

(** Without a positive window the forced split of a non-empty text does
    not return. *)
Lemma forceSplit_diverges (text : str) (maxSize : Z) :
  maxSize <= 0 -> text <> [] -> forceSplit text maxSize = None.
Proof.
  intros. apply forceSplit_loop_diverges; [assumption | lia | assumption].
Qed.

(** [None] is never a shortage of iterations: the forced split gives no
    result exactly when no number of iterations ends the loop. *)
Lemma forceSplit_None_iff (text : str) (maxSize : Z) :
  forceSplit text maxSize = None <->
  forall fuel, forceSplit_loop fuel text maxSize 0 = None.
Proof.
  split; [| intros H; apply H].
  intros H fuel.
  destruct (Z.le_gt_cases 1 maxSize) as [Hpos | Hneg].
  - destruct (forceSplit_total text maxSize Hpos) as (c & E & _). congruence.
  - apply forceSplit_loop_diverges; [lia | lia |].
    intros ->. discriminate H.
Qed.

End ForceSplit.

(** ** The recursive split *)

Section RecursiveSplit.

Variable maxSize : Z.

Lemma splitParts_within (rec : str -> option (list str)) (separator : str) :
  (forall part, maxSize < len part ->
      exists sub, rec part = Some sub /\ Forall (within maxSize) sub) ->
  forall parts result currentChunk,
    Forall (within maxSize) result ->
    (truthy currentChunk = true -> within maxSize currentChunk) ->
    exists segs,
      splitParts rec separator maxSize parts result currentChunk = Some segs /\
      Forall (within maxSize) segs.
Proof.
  intros Hrec. induction parts as [| part parts IH];
    intros result cur Hres Hcur; simpl.
  - eexists. split; [reflexivity |].
    destruct (truthy cur) eqn:E; [| assumption].
    apply Forall_app. split; [assumption |].
    constructor; [auto | constructor].
  - assert (Forall (within maxSize)
              (if truthy cur then result ++ [cur] else result)) as Hflush.
    { destruct (truthy cur) eqn:E; [| assumption].
      apply Forall_app. split; [assumption |].
      constructor; [auto | constructor]. }
    destruct (Z.leb_spec (len cur + len part + len separator) maxSize) as [Hfit | Hover].
    + apply IH; [assumption |]. intros _.
      unfold within. rewrite !len_app.
      pose proof (len_nonneg separator).
      destruct (truthy cur); [lia |].
      change (len []) with 0. lia.
    + destruct (Z.ltb_spec maxSize (len part)) as [Hbig | Hsmall].
      * destruct (Hrec part Hbig) as (sub & -> & Hsub).
        apply IH; [| discriminate].
        apply Forall_app. split; assumption.
      * apply IH; [assumption |]. intros _. exact Hsmall.
Qed.

Hypothesis maxSize_pos : 1 <= maxSize.

(** For a positive bound the recursive split returns, and every segment
    it returns respects the bound. *)
Lemma recursiveSplit_within (separators : list str) :
  forall text,
    exists segs,
      recursiveSplit separators text maxSize = Some segs /\
      Forall (within maxSize) segs.
Proof.
  induction separators as [| separator remaining IH]; intros text; simpl.
  - destruct (Z.leb_spec (len text) maxSize).
    + eexists. split; [reflexivity |]. constructor; [assumption | constructor].
    + apply forceSplit_total. assumption.
  - destruct (Z.leb_spec (len text) maxSize).
    + eexists. split; [reflexivity |]. constructor; [assumption | constructor].
    + destruct (truthy separator).
      * apply splitParts_within; [| constructor | discriminate].
        intros part _. apply IH.
      * apply forceSplit_total. assumption.
Qed.

End RecursiveSplit.

(** ** The chunk sequence *)

Section ChunkText.

Lemma imap_positions {A B : Type} (g : B -> nat) (l : list A) :
  forall (k : nat) (f : nat -> A -> B),
    (forall i x, g (f i x) = (k + i)%nat) ->
    map g (imap f l) = seq k (length l).
Proof.
  induction l as [| a l IH]; intros k f Hf; simpl; [reflexivity |].
  f_equal.
  - rewrite Hf. lia.
  - apply IH. intros i x. unfold compose. rewrite Hf. lia.
Qed.

Lemma imap_Forall {A B : Type} (P : B -> Prop) (f : nat -> A -> B) (l : list A) :
  (forall i x, l !! i = Some x -> P (f i x)) -> Forall P (imap f l).
Proof.
  intros H. apply Forall_lookup. intros i y Hy.
  rewrite list_lookup_imap in Hy.
  destruct (l !! i) as [x |] eqn:E; simpl in Hy; [| discriminate].
  injection Hy as <-. apply H. assumption.
Qed.

(** A call that does not return has a size bound that is not positive. *)
Lemma chunkText_None (text : str) (config : ChunkConfig) :
  chunkText text config = None -> cfgMaxChunkSize config <= 0.
Proof.
  unfold chunkText. intros H.
  destruct (Z.le_gt_cases 1 (cfgMaxChunkSize config)) as [Hpos |]; [| lia].
  destruct (len text <=? cfgMaxChunkSize config); [discriminate |].
  destruct (recursiveSplit_within _ Hpos (cfgSeparators config) text)
    as (segs & E & _).
  rewrite E in H. discriminate.
Qed.

(** The short path hands the text back as it is. *)
Lemma chunkText_short (text : str) (config : ChunkConfig) :
  len text <= cfgMaxChunkSize config ->
  chunkText text config =
    Some [ {| Chunk.content := text;
              Chunk.metadata :=
                {| Chunk.source := []; Chunk.chunkIndex := 0;
                   Chunk.totalChunks := 1; Chunk.section := None |} |} ].
Proof.
  intros H. unfold chunkText.
  destruct (Z.leb_spec (len text) (cfgMaxChunkSize config)); [reflexivity | lia].
Qed.

Lemma chunkAt_len (splits : list str) (maxSize overlap : Z) (i : nat) (seg : str) :
  0 <= overlap -> Forall (within maxSize) splits -> within maxSize seg ->
  len (Chunk.content (chunkAt splits overlap i seg)) <= maxSize + overlap + 1 /\
  (i = 0%nat -> len (Chunk.content (chunkAt splits overlap i seg)) <= maxSize).
Proof.
  intros Ho Hall Hseg. unfold chunkAt, within in *. cbn [Chunk.content].
  destruct i as [| i]; cbn [Nat.ltb Nat.leb andb].
  - pose proof (trim_len seg). split; [lia | intros _; lia].
  - split; [| discriminate].
    destruct (Z.ltb_spec 0 overlap) as [Hpos |].
    + etransitivity; [apply trim_len |].
      rewrite !len_app.
      pose proof (slice_tail_len (default [] (splits !! (S i - 1)%nat)) overlap Hpos).
      change (len (lit " ")) with 1. lia.
    + pose proof (trim_len seg). lia.
Qed.

End ChunkText.

(** C1 (short texts): on a text no longer than the bound the code returns
    one chunk with index 0 of 1 whose content is the text itself, white
    space included.  At the text [" a"] under the default configuration the
    returned content is [" a"], which differs from the trimmed text ["a"]. *)
Theorem chunkText_short_keeps_whitespace :
  len (lit " a") <= cfgMaxChunkSize emptyConfig /\
  chunkText (lit " a") emptyConfig =
    Some [ {| Chunk.content := lit " a";
              Chunk.metadata :=
                {| Chunk.source := []; Chunk.chunkIndex := 0;
                   Chunk.totalChunks := 1; Chunk.section := None |} |} ] /\
  trim (lit " a") = lit "a" /\
  lit " a" <> trim (lit " a").
Proof.
  split; [vm_compute; discriminate |].
  split; [reflexivity |].
  split; [reflexivity |].
  vm_compute. discriminate.
Qed.

(** C2 (positions): whenever [chunkText] returns, the [chunkIndex] values
    of the returned sequence are 0, 1, ..., n-1 in this order, where n is
    the length of the sequence, and every chunk records n as
    [totalChunks].  The call returns for every positive size bound. *)
Theorem chunkText_indices_contiguous (text : str) (config : ChunkConfig) :
  match chunkText text config with
  | Some chunks =>
      map (fun c => Chunk.chunkIndex (Chunk.metadata c)) chunks = seq 0 (length chunks) /\
      Forall (fun c => Chunk.totalChunks (Chunk.metadata c) = length chunks) chunks
  | None => cfgMaxChunkSize config <= 0
  end.
Proof.
  destruct (chunkText text config) as [chunks |] eqn:E;
    [| apply chunkText_None with text; assumption].
  unfold chunkText in E.
  destruct (len text <=? cfgMaxChunkSize config).
  - injection E as <-. simpl. split; [reflexivity |].
    constructor; [reflexivity | constructor].
  - destruct (recursiveSplit _ text _) as [splits |]; [| discriminate].
    injection E as <-. rewrite length_imap. split.
    + apply imap_positions. intros i x. reflexivity.
    + apply imap_Forall. intros i x _. reflexivity.
Qed.

(** C4 (2500 times "A", bound 1000, overlap 200, default separators): no
    non-empty separator occurs in the text; the raw segments are the
    windows of 1000, 1000 and 500 characters; the result has three chunks,
    the first being the first window, each later one being the last 200
    characters of the previous window, one space, and its own window. *)
Theorem chunkText_2500_A :
  let text := JS.repeat (lit "A") 2500 in
  let config := {| maxChunkSize := Some 1000; overlap := Some 200;
                   separators := Some CONSTANTS.CHUNKING.SEPARATORS |} in
  let s0 := take 1000 text in
  let s1 := take 1000 (drop 1000 text) in
  let s2 := drop 2000 text in
  let chunk c i :=
    {| Chunk.content := c;
       Chunk.metadata :=
         {| Chunk.source := []; Chunk.chunkIndex := i;
            Chunk.totalChunks := 3; Chunk.section := None |} |} in
  Forall (fun sep => truthy sep = true -> includes text sep = false)
    CONSTANTS.CHUNKING.SEPARATORS /\
  recursiveSplit CONSTANTS.CHUNKING.SEPARATORS text 1000 = Some [s0; s1; s2] /\
  (length s0 = 1000 /\ length s1 = 1000 /\ length s2 = 500)%nat /\
  chunkText text config =
    Some [ chunk s0 0%nat;
           chunk (drop 800 s0 ++ lit " " ++ s1) 1%nat;
           chunk (drop 800 s1 ++ lit " " ++ s2) 2%nat ] /\
  (length (drop 800 s0) = 200 /\ length (drop 800 s1) = 200)%nat.
Proof.
  intros text config s0 s1 s2 chunk.
  split.
  { unfold CONSTANTS.CHUNKING.SEPARATORS.
    repeat first [apply List.Forall_cons | apply List.Forall_nil]; intros H;
      try (vm_compute; reflexivity); discriminate H. }
  split; [vm_compute; reflexivity |].
  split; [vm_compute; repeat split |].
  split; [vm_compute; reflexivity |].
  vm_compute. split; reflexivity.
Qed.

(** C10 (size bound): for a size bound of at least 1 and a non-negative
    overlap, the recursive split returns and each of its segments has at
    most [maxChunkSize] characters; [chunkText] returns, each chunk has at
    most [maxChunkSize + overlap + 1] characters, and the chunk at position
    0 has at most [maxChunkSize]. *)
Theorem chunk_sizes_bounded (text : str) (config : ChunkConfig) :
  1 <= cfgMaxChunkSize config -> 0 <= cfgOverlap config ->
  (exists segs,
      recursiveSplit (cfgSeparators config) text (cfgMaxChunkSize config)
        = Some segs /\
      Forall (fun s => len s <= cfgMaxChunkSize config) segs) /\
  (exists chunks,
      chunkText text config = Some chunks /\
      Forall (fun c => len (Chunk.content c)
                       <= cfgMaxChunkSize config + cfgOverlap config + 1) chunks /\
      (forall c, chunks !! 0%nat = Some c ->
                 len (Chunk.content c) <= cfgMaxChunkSize config)).
Proof.
  intros Hm Ho.
  destruct (recursiveSplit_within _ Hm (cfgSeparators config) text)
    as (segs & E & Hsegs).
  split; [exists segs; split; assumption |].
  unfold chunkText.
  destruct (Z.leb_spec (len text) (cfgMaxChunkSize config)) as [Hshort | Hlong].
  - eexists. split; [reflexivity |]. split.
    + constructor; [simpl; lia | constructor].
    + intros c Hc. injection Hc as <-. simpl. assumption.
  - rewrite E. eexists. split; [reflexivity |]. split.
    + apply imap_Forall. intros i seg Hseg.
      apply (chunkAt_len segs (cfgMaxChunkSize config) (cfgOverlap config)
               i seg Ho Hsegs).
      eapply Forall_lookup_1; eassumption.
    + intros c Hc. rewrite list_lookup_imap in Hc.
      destruct (segs !! 0%nat) as [seg |] eqn:E0; simpl in Hc; [| discriminate].
      injection Hc as <-.
      apply (chunkAt_len segs (cfgMaxChunkSize config) (cfgOverlap config)
               0%nat seg Ho Hsegs); [| reflexivity].
      eapply Forall_lookup_1; eassumption.
Qed.

(** The bound at work: three chunks of at most 5 + 2 + 1 characters. *)
Lemma chunk_sizes_bounded_witness :
  let config := {| maxChunkSize := Some 5; overlap := Some 2;
                   separators := None |} in
  (1 <= cfgMaxChunkSize config /\ 0 <= cfgOverlap config) /\
  exists chunks,
    chunkText (lit "hello world foo") config = Some chunks /\
    Forall (fun c => len (Chunk.content c) <= 8) chunks.
Proof.
  intros config. split; [split; vm_compute; discriminate |].
  destruct (chunk_sizes_bounded (lit "hello world foo") config)
    as (_ & chunks & E & Hall & _);
    [vm_compute; discriminate | vm_compute; discriminate |].
  exists chunks. split; [exact E | exact Hall].
Defined.

(** ** The crawl *)

Section Crawl.

Import Crawler.

Variable w : World.

(** What a page task returns depends on the outcome of rendering alone,
    not on the scraper it runs in. *)
Lemma emitted_independent (self self' : Scraper) (n : nat) (url : str) :
  emitted w self n url = emitted w self' n url.
Proof.
  unfold emitted, scrapePage. destruct (render w n url); reflexivity.
Qed.

Lemma scrapePage_results (self : Scraper) (n : nat) (url : str) :
  results (snd (scrapePage w self n url)) = results self.
Proof.
  unfold scrapePage. destruct (render w n url); reflexivity.
Qed.

(** The loop appends, in order, the pages of the tasks that returned one. *)
Lemma scrapeEach_results (urls : list str) :
  forall (self : Scraper) (n : nat),
    results (scrapeEach w self n urls) =
    results self ++
    omap id (imap (fun i url => emitted w self (n + i) url) urls).
Proof.
  induction urls as [| url urls IH]; intros self n; cbn [scrapeEach].
  - simpl. rewrite app_nil_r. reflexivity.
  - pose proof (scrapePage_results self n url) as Hres.
    assert (emitted w self n url = fst (scrapePage w self n url)) as Hem
      by reflexivity.
    destruct (scrapePage w self n url) as [result self1].
    cbn [fst snd] in Hres, Hem.
    rewrite IH. cbn [imap omap].
    replace (n + 0)%nat with n by lia. rewrite Hem.
    assert (forall s : Scraper,
               imap (fun i u => emitted w s (S n + i) u) urls =
               imap ((fun i u => emitted w self (n + i) u) ∘ S) urls) as Hshift.
    { intros s. apply imap_ext. intros i u _. unfold compose.
      replace (n + S i)%nat with (S n + i)%nat by lia.
      apply emitted_independent. }
    rewrite Hshift.
    destruct result as [page |]; cbn [results id].
    + rewrite Hres, <- app_assoc. reflexivity.
    + rewrite Hres. reflexivity.
Qed.

(** A sitemap fetch that raises ends the run with the error; no page task
    runs and the scraper is left as it was. *)
Lemma scrape_network_error (self : Scraper) :
  fetch w (sitemapAddress (config self)) = NetworkError ->
  scrape w self = (Threw, self).
Proof.
  intros H. unfold scrape, fetchSitemap. rewrite H. reflexivity.
Qed.

(** The run raises only when the sitemap fetch raises. *)
Lemma scrape_threw_iff (self : Scraper) :
  fst (scrape w self) = Threw <->
  fetch w (sitemapAddress (config self)) = NetworkError.
Proof.
  unfold scrape, fetchSitemap.
  destruct (fetch w (sitemapAddress (config self))); simpl;
    split; intros H; try reflexivity; discriminate.
Qed.

End Crawl.

(** C3 (no two pages for one URL): a sitemap that lists one location twice
    makes a fresh scraper emit two pages with that URL.  The filter runs
    over the whole list while the visited set is still empty, so both
    entries pass; the URL enters the visited set only inside the page task,
    once the page has been read. *)
Theorem scrape_duplicate_sitemap_entries :
  let self := Crawler.new Scenario.plainConfig in
  let w := Scenario.duplicateWorld in
  let page := Scenario.pageAt Scenario.urlA (lit "text") in
  Crawler.fetchSitemap w (Crawler.sitemapAddress Scenario.plainConfig)
    = Crawler.Returned [Scenario.urlA; Scenario.urlA] /\
  Crawler.scheduled w self [Scenario.urlA; Scenario.urlA]
    = [Scenario.urlA; Scenario.urlA] /\
  Crawler.visited self = ∅ /\
  Scenario.urlA ∈ Crawler.visited (snd (Crawler.scrapePage w self 0 Scenario.urlA)) /\
  Crawler.scrapeDocumentation w Scenario.plainConfig
    = Crawler.Returned [page; page] /\
  ~ NoDup (map Page.url [page; page]).
Proof.
  intros self w page.
  split; [vm_compute; reflexivity |].
  split; [vm_compute; reflexivity |].
  split; [reflexivity |].
  split; [cbn; set_solver |].
  split; [vm_compute; reflexivity |].
  intros H. apply NoDup_cons in H as [Hnotin _].
  apply Hnotin. cbn. left.
Qed.

(** C6 (fatal sitemap failure): when the sitemap address answers with an
    HTTP failure status (404, [ok] false), [scrape] does not raise: the
    body of the error response is scanned for locations like any sitemap
    and the run returns normally, here with no pages. *)
Theorem scrape_sitemap_http_failure_returns :
  let w := Scenario.notFoundWorld in
  Crawler.fetch w (Crawler.sitemapAddress Scenario.plainConfig)
    = Crawler.Response false 404 (lit "<html><body>Not Found</body></html>") /\
  Crawler.fetchSitemap w (Crawler.sitemapAddress Scenario.plainConfig)
    = Crawler.Returned [] /\
  Crawler.scrapeDocumentation w Scenario.plainConfig = Crawler.Returned [] /\
  Crawler.scrapeDocumentation w Scenario.plainConfig <> Crawler.Threw.
Proof.
  intros w.
  split; [reflexivity |].
  split; [vm_compute; reflexivity |].
  split; [vm_compute; reflexivity |].
  vm_compute. discriminate.
Qed.




(** ** The classifier *)

Section Classifier.

Lemma startsWith_prefix (pat s : str) :
  startsWith s pat = true <-> exists post, s = pat ++ post.
Proof.
  revert s. induction pat as [| p pat IH]; intros s; simpl.
  - split; [intros _; exists s; reflexivity | reflexivity].
  - destruct s as [| c s].
    + split; [discriminate | intros [post H]; discriminate].
    + rewrite andb_true_iff, IH. split.
      * intros [Hpc [post ->]]. apply Ascii.eqb_eq in Hpc as ->.
        exists post. reflexivity.
      * intros [post H]. injection H as -> ->.
        split; [apply Ascii.eqb_refl | exists post; reflexivity].
Qed.

(** [includes] decides occurrence. *)
Lemma includes_Contains (s pat : str) :
  includes s pat = true <-> Contains s pat.
Proof.
  unfold Contains. induction s as [| c s IH].
  - cbn [includes]. rewrite orb_false_r, startsWith_prefix. split.
    + intros [post H]. exists [], post. exact H.
    + intros (pre & post & H). destruct pre; [exists post; exact H |].
      discriminate.
  - cbn [includes]. rewrite orb_true_iff, startsWith_prefix, IH. split.
    + intros [[post H] | (pre & post & H)].
      * exists [], post. exact H.
      * exists (c :: pre), post. rewrite H. reflexivity.
    + intros (pre & post & H). destruct pre as [| c' pre].
      * left. exists post. exact H.
      * right. injection H as -> ->. exists pre, post. reflexivity.
Qed.

Lemma includes_not_Contains (s pat : str) :
  includes s pat = false <-> ~ Contains s pat.
Proof.
  rewrite <- includes_Contains. destruct (includes s pat); split;
    congruence.
Qed.

Lemma toLowerCase_length (s : str) : length (toLowerCase s) = length s.
Proof. apply length_map. Qed.

Lemma extractMetadata_version (page : Page.t) :
  In (Meta.version (extractMetadata page)) VERSIONS.
Proof.
  unfold extractMetadata, VERSIONS. cbn [Meta.version].
  destruct (_ || _); simpl; auto.
Qed.

Lemma extractMetadata_framework (page : Page.t) :
  In (Meta.framework (extractMetadata page)) FRAMEWORKS.
Proof.
  unfold extractMetadata, FRAMEWORKS. cbn [Meta.framework].
  case_ifs; simpl; auto.
Qed.

Lemma extractMetadata_docType (page : Page.t) :
  In (Meta.docType (extractMetadata page)) DOC_TYPES.
Proof.
  unfold extractMetadata, DOC_TYPES. cbn [Meta.docType].
  case_ifs; simpl; auto.
Qed.

Lemma filter_sublist {A : Type} (f : A -> bool) (l : list A) :
  List.filter f l `sublist_of` l.
Proof.
  induction l as [| x l IH]; simpl; [constructor |].
  destruct (f x); [apply sublist_skip | apply sublist_cons]; exact IH.
Qed.

(** The keywords are headings of the page, lower-cased, in page order. *)
Lemma extractMetadata_keywords_headings (page : Page.t) :
  Meta.keywords (extractMetadata page)
    `sublist_of` map toLowerCase (Page.headings (Page.metadata page)).
Proof.
  unfold extractMetadata. cbn [Meta.keywords].
  etransitivity; [apply sublist_take |].
  apply (fmap_sublist toLowerCase). apply filter_sublist.
Qed.

Lemma extractMetadata_keywords (page : Page.t) :
  (length (Meta.keywords (extractMetadata page)) <= 10)%nat /\
  Forall (fun k => k <> []) (Meta.keywords (extractMetadata page)).
Proof.
  unfold extractMetadata. cbn [Meta.keywords]. split.
  - rewrite length_take. lia.
  - apply Forall_take. apply List.Forall_map. apply List.Forall_forall.
    intros h Hh. apply List.filter_In in Hh as [_ Hlen].
    apply Z.ltb_lt in Hlen. intros Hnil.
    apply (f_equal (@length _)) in Hnil.
    rewrite toLowerCase_length in Hnil. unfold len in Hlen.
    simpl in Hnil. lia.
Qed.

End Classifier.

(** ** The assembler and the sink boundary *)

Section Assembler.

Lemma processScrapedPages_documents (chunkConfig : option ChunkConfig) :
  forall pages documents,
    processScrapedPages pages chunkConfig = Some documents ->
    Forall (fun doc => exists page chunk,
                In page pages /\
                doc = documentOf page (extractMetadata page) chunk)
           documents.
Proof.
  induction pages as [| page pages IH]; intros documents H; simpl in H.
  - injection H as <-. constructor.
  - destruct (chunkText _ _) as [chunks |]; [| discriminate].
    destruct (processScrapedPages pages chunkConfig) as [rest |];
      [| discriminate].
    injection H as <-. apply Forall_app. split.
    + apply List.Forall_map. apply List.Forall_forall. intros chunk _.
      exists page, chunk. split; [left; reflexivity | reflexivity].
    + eapply List.Forall_impl; [| apply IH; reflexivity].
      intros doc (p & c & Hin & ->). exists p, c.
      split; [right; assumption | reflexivity].
Qed.

(** With a positive size bound the assembler returns. *)
Lemma processScrapedPages_total (chunkConfig : option ChunkConfig) :
  1 <= cfgMaxChunkSize (default emptyConfig chunkConfig) ->
  forall pages, is_Some (processScrapedPages pages chunkConfig).
Proof.
  intros Hm. induction pages as [| page pages [rest IH]]; simpl.
  - eexists; reflexivity.
  - pose proof (chunkText_None (Page.content page)
                  (default emptyConfig chunkConfig)) as Hnone.
    destruct (chunkText _ _) as [chunks |].
    + rewrite IH. eexists; reflexivity.
    + specialize (Hnone eq_refl). lia.
Qed.

Lemma or_else_truthy (a b : str) : a <> [] -> or_else a b = a.
Proof. destruct a; [congruence | reflexivity]. Qed.

Lemma in_nonempty (x : str) (l : list str) :
  In x l -> Forall (fun s => s <> []) l -> x <> [].
Proof.
  intros Hin Hall. rewrite List.Forall_forall in Hall. auto.
Qed.

End Assembler.

(** C5, as stated, fails: a page with empty content yields a document with
    empty content, and that document is among the objects given to the
    sink. *)
Lemma empty_content_reaches_sink :
  let page := Scenario.pageAt Scenario.urlA (lit "") in
  exists doc,
    processScrapedPages [page] None = Some [doc] /\
    Doc.content doc = lit "" /\
    map SinkObject.content (batchImport_objects 0 [doc]) = [ lit "" ].
Proof.
  intros page. eexists. split; [vm_compute; reflexivity |].
  split; reflexivity.
Qed.

(** C5 (amended): the documents the assembler returns for a batch of pages
    are handed to the sink one object each, in order, with the content of
    the chunk as it is (no check on it), and with version, framework and
    document type set to a classifier value or its default and a list of
    at most ten non-empty keywords.  Each object belongs to a page of the
    batch: it carries the URL and title of that page, its version,
    framework, document type and keywords are the ones the classifier
    gives for that page (the defaults of the sink never replace them), and
    its keywords are headings of that page, lower-cased, in page order. *)
Theorem documents_reach_sink_classified (pages : list Page.t)
    (chunkConfig : option ChunkConfig) (documents : list Doc.t) (now : Z) :
  processScrapedPages pages chunkConfig = Some documents ->
  map SinkObject.content (batchImport_objects now documents)
    = map Doc.content documents /\
  Forall classified (batchImport_objects now documents) /\
  Forall (fun o => exists page,
              In page pages /\ classifiedAs page o /\
              SinkObject.keywords o
                `sublist_of` map toLowerCase (Page.headings (Page.metadata page)))
         (batchImport_objects now documents).
Proof.
  intros H. split; [| split].
  - unfold batchImport_objects. rewrite List.map_map. reflexivity.
  - apply processScrapedPages_documents in H.
    unfold batchImport_objects. apply List.Forall_map.
    eapply List.Forall_impl; [| exact H].
    intros doc (page & chunk & _ & ->).
    unfold classified, documentOf.
    cbn [SinkObject.version SinkObject.framework SinkObject.docType
         SinkObject.keywords Doc.version Doc.framework Doc.docType
         Doc.keywords default].
    pose proof (extractMetadata_version page) as Hv.
    pose proof (extractMetadata_framework page) as Hf.
    rewrite !or_else_truthy.
    + split; [exact Hv |]. split; [exact Hf |].
      split; [apply extractMetadata_docType |].
      apply extractMetadata_keywords.
    + eapply in_nonempty; [exact Hf |].
      repeat constructor; discriminate.
    + eapply in_nonempty; [exact Hv |].
      repeat constructor; discriminate.
  - apply processScrapedPages_documents in H.
    unfold batchImport_objects. apply List.Forall_map.
    eapply List.Forall_impl; [| exact H].
    intros doc (page & chunk & Hin & ->).
    exists page. split; [exact Hin |].
    unfold classifiedAs, documentOf.
    cbn [SinkObject.url SinkObject.title SinkObject.version
         SinkObject.framework SinkObject.docType SinkObject.keywords
         Doc.url Doc.title Doc.version Doc.framework Doc.docType
         Doc.keywords default].
    pose proof (extractMetadata_version page) as Hv.
    pose proof (extractMetadata_framework page) as Hf.
    rewrite !or_else_truthy.
    + split; [| apply extractMetadata_keywords_headings].
      repeat split.
    + eapply in_nonempty; [exact Hf |].
      repeat constructor; discriminate.
    + eapply in_nonempty; [exact Hv |].
      repeat constructor; discriminate.
Qed.

(** One page cut into three chunks: three classified objects, each with
    the classification of that page. *)
Lemma documents_reach_sink_classified_witness :
  let page := Scenario.pageAt Scenario.urlA (lit "hello world foo") in
  let config := Some {| maxChunkSize := Some 5; overlap := Some 2;
                        separators := None |} in
  exists documents,
    processScrapedPages [page] config = Some documents /\
    length documents = 3%nat /\
    Forall classified (batchImport_objects 0 documents) /\
    Forall (fun o => exists page',
                In page' [page] /\ classifiedAs page' o /\
                SinkObject.keywords o
                  `sublist_of`
                  map toLowerCase (Page.headings (Page.metadata page')))
           (batchImport_objects 0 documents).
Proof.
  intros page config.
  destruct (processScrapedPages [page] config) as [documents |] eqn:E;
    [| vm_compute in E; discriminate E].
  exists documents. split; [reflexivity |].
  split; [vm_compute in E; injection E as <-; reflexivity |].
  apply (documents_reach_sink_classified [page] config documents 0 E).
Defined.

(** C7, as stated, fails on upper-case text: the URL below contains none of
    the three substrings, so the rule as worded gives "core", while the
    classifier, which lower-cases the URL and the content before it looks,
    gives "astro". *)
Lemma framework_uppercase_url :
  let page := Scenario.pageAt (lit "https://docs.example.com/ASTRO/intro") (lit "") in
  ~ Contains (Page.url page) (lit "astro") /\
  ~ Contains (Page.content page) (lit "astro") /\
  frameworkAsWorded (Page.url page) (Page.content page) = lit "core" /\
  Meta.framework (extractMetadata page) = lit "astro".
Proof.
  intros page.
  split; [apply includes_not_Contains; vm_compute; reflexivity |].
  split; [apply includes_not_Contains; vm_compute; reflexivity |].
  split; vm_compute; reflexivity.
Qed.

(** C7 (amended): with the URL and the content lower-cased first, the
    framework is "astro" if either contains "astro"; else "vue" if either
    contains "vue"; else "nunjucks" if the URL contains "nunjucks"; else
    "core". *)
Theorem framework_first_match (page : Page.t) :
  let url := toLowerCase (Page.url page) in
  let content := toLowerCase (Page.content page) in
  let framework := Meta.framework (extractMetadata page) in
  let astro := Contains url (lit "astro") \/ Contains content (lit "astro") in
  let vue := Contains url (lit "vue") \/ Contains content (lit "vue") in
  let nunjucks := Contains url (lit "nunjucks") in
  (astro -> framework = lit "astro") /\
  (~ astro -> vue -> framework = lit "vue") /\
  (~ astro -> ~ vue -> nunjucks -> framework = lit "nunjucks") /\
  (~ astro -> ~ vue -> ~ nunjucks -> framework = lit "core").
Proof.
  intros url content framework astro vue nunjucks.
  subst framework astro vue nunjucks.
  unfold extractMetadata. cbn [Meta.framework]. fold url content.
  rewrite <- !includes_Contains.
  destruct (includes url (lit "astro")), (includes content (lit "astro")),
    (includes url (lit "vue")), (includes content (lit "vue")),
    (includes url (lit "nunjucks")); cbn [orb];
    repeat split; intros; try reflexivity;
    repeat match goal with
           | H : _ \/ _ |- _ => destruct H
           | H : ~ _ |- _ => exfalso; apply H; auto
           end; try discriminate; try congruence.
Qed.

(** The first rule wins over the second, whatever the case of the text. *)
Lemma framework_first_match_witness :
  Meta.framework
    (extractMetadata
       (Scenario.pageAt (lit "https://docs.example.com/guide/Vue-islands")
                        (lit "Use ASTRO islands")))
  = lit "astro".
Proof.
  apply (framework_first_match
           (Scenario.pageAt (lit "https://docs.example.com/guide/Vue-islands")
                            (lit "Use ASTRO islands"))).
  right. apply includes_Contains. vm_compute. reflexivity.
Defined.

(** ** The OpenAPI importer *)

Section Importer.

Import OpenAPI.

Lemma replace_slash_injective (p1 p2 : str) :
  ~ In "-"%char p1 -> ~ In "-"%char p2 ->
  replaceAllChar "/" "-" p1 = replaceAllChar "/" "-" p2 -> p1 = p2.
Proof.
  revert p2. induction p1 as [| c1 p1 IH]; intros [| c2 p2] H1 H2 H;
    try discriminate; [reflexivity |].
  simpl in H. injection H as Hc Hp.
  f_equal.
  - destruct (Ascii.eqb_spec c1 "/"), (Ascii.eqb_spec c2 "/"); subst;
      try reflexivity.
    + exfalso. apply H2. left. reflexivity.
    + exfalso. apply H1. left. reflexivity.
  - apply IH; [| | assumption]; intros Hin.
    + apply H1. right. assumption.
    + apply H2. right. assumption.
Qed.

(** The method in front of the first hyphen is read back without doubt:
    no operation key contains a hyphen or is a prefix of another. *)
Lemma method_prefix_injective (m1 m2 x y : str) :
  In m1 OPERATION_KEYS -> In m2 OPERATION_KEYS ->
  m1 ++ lit "-" ++ x = m2 ++ lit "-" ++ y -> m1 = m2 /\ x = y.
Proof.
  unfold OPERATION_KEYS. cbn [In]. intros H1 H2 H.
  repeat (destruct H1 as [<- | H1]; [| try contradiction]);
    repeat (destruct H2 as [<- | H2]; [| try contradiction]);
    cbv [lit list_ascii_of_string app] in H;
    try discriminate H;
    (split; [reflexivity | congruence]).
Qed.

Lemma method_not_schema (m x y : str) :
  In m OPERATION_KEYS -> m ++ lit "-" ++ x <> lit "schema-" ++ y.
Proof.
  unfold OPERATION_KEYS. cbn [In]. intros H1 H.
  repeat (destruct H1 as [<- | H1]; [| try contradiction]);
    cbv [lit list_ascii_of_string app] in H; discriminate H.
Qed.

End Importer.

(** C8, as stated, fails: slashes of the path become hyphens, so two
    different paths of one specification, under the same method, get the
    same page URL. *)
Lemma operation_urls_collide :
  let source := lit "openapi.json" in
  let spec := {| OpenAPI.hasInfo := true;
                 OpenAPI.paths := [ (lit "/a/b", [lit "get"]);
                                    (lit "/a-b", [lit "get"]) ];
                 OpenAPI.schemas := [] |} in
  (lit "get", lit "/a/b") <> (lit "get", lit "/a-b") /\
  OpenAPI.operationPageUrl source (lit "/a/b") (lit "get")
    = OpenAPI.operationPageUrl source (lit "/a-b") (lit "get") /\
  OpenAPI.pageUrls source spec
    = [ lit "openapi.json#info"; lit "openapi.json#get--a-b";
        lit "openapi.json#get--a-b" ].
Proof.
  intros source spec.
  split; [vm_compute; discriminate |].
  split; vm_compute; reflexivity.
Qed.

(** C8 (amended): the page URLs are functions of source and unit alone.
    Two schema names give the same URL only if they are equal; two
    operations give the same URL exactly when their methods are equal and
    their paths are equal once every slash is replaced by a hyphen, so
    operations whose paths hold no hyphen get distinct URLs; an operation
    and a schema never share a URL. *)
Theorem synthetic_urls_distinct (source : str) :
  (forall n1 n2,
      OpenAPI.schemaPageUrl source n1 = OpenAPI.schemaPageUrl source n2 ->
      n1 = n2) /\
  (forall names, NoDup names -> NoDup (map (OpenAPI.schemaPageUrl source) names)) /\
  (forall m1 p1 m2 p2,
      In m1 OpenAPI.OPERATION_KEYS -> In m2 OpenAPI.OPERATION_KEYS ->
      (OpenAPI.operationPageUrl source p1 m1 = OpenAPI.operationPageUrl source p2 m2
       <-> m1 = m2 /\ replaceAllChar "/" "-" p1 = replaceAllChar "/" "-" p2)) /\
  (forall m1 p1 m2 p2,
      In m1 OpenAPI.OPERATION_KEYS -> In m2 OpenAPI.OPERATION_KEYS ->
      ~ In "-"%char p1 -> ~ In "-"%char p2 ->
      OpenAPI.operationPageUrl source p1 m1 = OpenAPI.operationPageUrl source p2 m2 ->
      m1 = m2 /\ p1 = p2) /\
  (forall m p n,
      In m OpenAPI.OPERATION_KEYS ->
      OpenAPI.operationPageUrl source p m <> OpenAPI.schemaPageUrl source n).
Proof.
  assert (forall n1 n2,
             OpenAPI.schemaPageUrl source n1 = OpenAPI.schemaPageUrl source n2 ->
             n1 = n2) as Hschema.
  { unfold OpenAPI.schemaPageUrl. intros n1 n2 H.
    apply app_inv_head in H. apply app_inv_head in H. exact H. }
  assert (forall m1 p1 m2 p2,
             In m1 OpenAPI.OPERATION_KEYS -> In m2 OpenAPI.OPERATION_KEYS ->
             OpenAPI.operationPageUrl source p1 m1
               = OpenAPI.operationPageUrl source p2 m2 ->
             m1 = m2 /\ replaceAllChar "/" "-" p1 = replaceAllChar "/" "-" p2)
    as Hop.
  { unfold OpenAPI.operationPageUrl. intros m1 p1 m2 p2 H1 H2 H.
    apply app_inv_head in H. apply app_inv_head in H.
    apply method_prefix_injective; assumption. }
  split; [exact Hschema |].
  split.
  { intros names Hnd. apply NoDup_fmap_2; [| exact Hnd].
    intros n1 n2. apply Hschema. }
  split.
  { intros m1 p1 m2 p2 H1 H2. split; [apply Hop; assumption |].
    intros [-> Hp]. unfold OpenAPI.operationPageUrl. rewrite Hp. reflexivity. }
  split.
  { intros m1 p1 m2 p2 H1 H2 Hp1 Hp2 H.
    destruct (Hop _ _ _ _ H1 H2 H) as [Hm Hp].
    split; [exact Hm |]. apply replace_slash_injective; assumption. }
  intros m p n Hm H. unfold OpenAPI.operationPageUrl, OpenAPI.schemaPageUrl in H.
  apply app_inv_head in H.
  change (lit "#schema-" ++ n) with (lit "#" ++ lit "schema-" ++ n) in H.
  apply app_inv_head in H.
  exact (method_not_schema m _ n Hm H).
Qed.

(** Two hyphen-free paths under one method. *)
Lemma synthetic_urls_distinct_witness :
  OpenAPI.operationPageUrl (lit "openapi.json") (lit "/pets") (lit "get")
  <> OpenAPI.operationPageUrl (lit "openapi.json") (lit "/pets/{id}") (lit "get").
Proof.
  intros H.
  destruct (synthetic_urls_distinct (lit "openapi.json")) as (_ & _ & _ & Hop & _).
  destruct (Hop (lit "get") (lit "/pets") (lit "get") (lit "/pets/{id}"))
    as [_ Hp]; try exact H.
  - vm_compute. auto.
  - vm_compute. auto.
  - vm_compute. intuition discriminate.
  - vm_compute. intuition discriminate.
  - discriminate Hp.
Defined.

(** * Further properties of the code *)

(** ** Splitting and joining *)

Section SplitJoin.

Lemma join_cons (sep part : str) (rest : list str) :
  rest <> [] -> join sep (part :: rest) = part ++ sep ++ join sep rest.
Proof. destruct rest; [congruence | reflexivity]. Qed.

Lemma split_scan_nonempty (sep s : str) :
  forall skip cur, split_scan sep skip cur s <> [].
Proof.
  induction s as [| c s IH]; intros skip cur; simpl; [discriminate |].
  destruct skip; [| apply IH].
  destruct (startsWith (c :: s) sep); [discriminate | apply IH].
Qed.

(** Passing over the rest of a separator occurrence. *)
Lemma split_scan_skip (sep pre s cur : str) :
  split_scan sep (length pre) cur (pre ++ s) = split_scan sep 0 cur s.
Proof.
  induction pre as [| c pre IH]; simpl; [reflexivity | exact IH].
Qed.

Lemma split_scan_join (sep : str) (n : nat) :
  sep <> [] ->
  forall s cur, (length s <= n)%nat ->
    join sep (split_scan sep 0 cur s) = rev cur ++ s.
Proof.
  intros Hsep. induction n as [| n IH]; intros s cur Hlen.
  - destruct s; [| simpl in Hlen; lia]. simpl. rewrite app_nil_r. reflexivity.
  - destruct s as [| c s]; [simpl; rewrite app_nil_r; reflexivity |].
    cbn [split_scan].
    destruct (startsWith (c :: s) sep) eqn:E.
    + apply startsWith_prefix in E as [post E].
      assert (exists sep', sep = c :: sep' /\ s = sep' ++ post) as (sep' & Es & ->).
      { destruct sep as [| c' sep']; [congruence |].
        injection E as <- ->. eauto. }
      replace (length sep - 1)%nat with (length sep')
        by (rewrite Es; simpl; lia).
      rewrite split_scan_skip.
      rewrite join_cons by apply split_scan_nonempty.
      rewrite IH.
      * rewrite Es. reflexivity.
      * simpl in Hlen. rewrite length_app in Hlen. lia.
    + rewrite IH by (simpl in Hlen; lia).
      simpl. rewrite <- app_assoc. reflexivity.
Qed.

(** Joining the parts with the separator gives the text back. *)
Lemma split_join (sep s : str) : sep <> [] -> join sep (split s sep) = s.
Proof.
  intros Hsep. unfold split.
  assert (split_scan sep 0 [] s = match sep with
                                  | [] => map (fun c => [c]) s
                                  | _ :: _ => split_scan sep 0 [] s
                                  end) as <-
    by (destruct sep; [congruence | reflexivity]).
  apply (split_scan_join sep (length s) Hsep s []). lia.
Qed.

Lemma split_scan_absent (sep s : str) :
  forall cur, includes s sep = false ->
    split_scan sep 0 cur s = [rev cur ++ s].
Proof.
  induction s as [| c s IH]; intros cur H.
  - simpl. rewrite app_nil_r. reflexivity.
  - cbn [includes] in H. apply orb_false_iff in H as [H1 H2].
    cbn [split_scan]. rewrite H1, IH by assumption.
    simpl. rewrite <- app_assoc. reflexivity.
Qed.

(** A text in which the separator does not occur is its own single part. *)
Lemma split_absent (sep s : str) :
  sep <> [] -> includes s sep = false -> split s sep = [s].
Proof.
  intros Hsep H. unfold split. destruct sep as [| c sep']; [congruence |].
  apply (split_scan_absent (c :: sep') s []). assumption.
Qed.

End SplitJoin.

(** ** The forced split cuts the text into its windows *)

Section ForceSplitWindows.

Variable text : str.
Variable maxSize : Z.
Hypothesis maxSize_pos : 1 <= maxSize.

Lemma slice_is_window (k : nat) :
  Z.of_nat k * maxSize < len text ->
  slice text (Z.of_nat k * maxSize) (Z.of_nat k * maxSize + maxSize)
  = window text maxSize k.
Proof.
  intros Hk. unfold slice, window, rel_index.
  pose proof (len_nonneg text) as Hn.
  destruct (Z.ltb_spec (Z.of_nat k * maxSize) 0); [lia |].
  destruct (Z.ltb_spec (Z.of_nat k * maxSize + maxSize) 0); [lia |].
  replace (Z.to_nat (Z.min (Z.of_nat k * maxSize) (len text)))
    with (k * Z.to_nat maxSize)%nat by lia.
  destruct (Z.le_gt_cases (Z.of_nat k * maxSize + maxSize) (len text)).
  - f_equal. lia.
  - rewrite !take_ge; [reflexivity | |];
      rewrite length_drop; unfold len in *; lia.
Qed.

Lemma forceSplit_loop_windows (fuel : nat) :
  forall k : nat,
    len text - Z.of_nat k * maxSize <= Z.of_nat fuel ->
    exists pieces,
      forceSplit_loop fuel text maxSize (Z.of_nat k * maxSize) = Some pieces /\
      concat pieces = drop (k * Z.to_nat maxSize) text /\
      Forall (fun piece => piece <> []) pieces /\
      (forall j piece, pieces !! j = Some piece ->
                       piece = window text maxSize (k + j)).
Proof.
  induction fuel as [| fuel IH]; intros k Hf; simpl.
  - destruct (Z.ltb_spec (Z.of_nat k * maxSize) (len text)); [lia |].
    exists []. repeat split; [| constructor | intros j piece Hj; discriminate].
    simpl. rewrite drop_ge; [reflexivity | unfold len in *; lia].
  - destruct (Z.ltb_spec (Z.of_nat k * maxSize) (len text)) as [Hlt | Hge].
    + replace (Z.of_nat k * maxSize + maxSize) with (Z.of_nat (S k) * maxSize)
        by lia.
      destruct (IH (S k)) as (rest & -> & Hcat & Hne & Hwin); [lia |].
      eexists. split; [reflexivity |].
      replace (Z.of_nat (S k) * maxSize) with (Z.of_nat k * maxSize + maxSize)
        by lia.
      rewrite slice_is_window by assumption.
      split; [| split].
      * cbn [concat]. rewrite Hcat. unfold window.
        replace (S k * Z.to_nat maxSize)%nat
          with (k * Z.to_nat maxSize + Z.to_nat maxSize)%nat by lia.
        rewrite <- drop_drop. apply take_drop.
      * constructor; [| assumption].
        unfold window. intros Hnil. apply (f_equal (@length _)) in Hnil.
        rewrite length_take, length_drop in Hnil. simpl in Hnil.
        unfold len in *. lia.
      * intros [| j] piece Hj; simpl in Hj.
        -- injection Hj as <-. f_equal. lia.
        -- rewrite (Hwin j piece Hj). f_equal. lia.
    + exists []. repeat split; [| constructor | intros j piece Hj; discriminate].
      simpl. rewrite drop_ge; [reflexivity | unfold len in *; lia].
Qed.

Lemma forceSplit_pieces :
  exists pieces,
    forceSplit text maxSize = Some pieces /\
    concat pieces = text /\
    Forall (fun piece => piece <> []) pieces /\
    (forall j piece, pieces !! j = Some piece -> piece = window text maxSize j).
Proof.
  destruct (forceSplit_loop_windows (length text) 0%nat)
    as (pieces & E & Hcat & Hne & Hwin); [unfold len; lia |].
  exists pieces. split; [exact E |]. split; [exact Hcat |].
  split; [exact Hne | exact Hwin].
Qed.

End ForceSplitWindows.

(** X1 (forced split): for a window width of at least 1, [forceSplit]
    returns the consecutive windows of the text: piece [j] is the text from
    position [j * maxSize], at most [maxSize] characters long; no piece is
    empty and the pieces put together are the text. *)
Theorem forceSplit_windows (text : str) (maxSize : Z) :
  1 <= maxSize ->
  exists pieces,
    forceSplit text maxSize = Some pieces /\
    concat pieces = text /\
    Forall (fun piece => piece <> []) pieces /\
    (forall j piece, pieces !! j = Some piece -> piece = window text maxSize j).
Proof.
  intros Hm.
  destruct (forceSplit_loop_windows text maxSize Hm (length text) 0%nat)
    as (pieces & E & Hcat & Hne & Hwin); [unfold len; lia |].
  exists pieces. split; [exact E |]. split; [exact Hcat |].
  split; [exact Hne | exact Hwin].
Qed.

(** A text of seven characters in windows of three. *)
Lemma forceSplit_windows_witness :
  exists pieces,
    forceSplit (lit "abcdefg") 3 = Some pieces /\ concat pieces = lit "abcdefg".
Proof.
  destruct (forceSplit_windows (lit "abcdefg") 3) as (pieces & E & Hcat & _);
    [lia |].
  exists pieces. split; assumption.
Defined.

(** ** What the recursive split keeps of the text *)

Section RecursiveSplitContent.

Variable maxSize : Z.
Hypothesis maxSize_pos : 1 <= maxSize.

Lemma flush_concat (result : list str) (cur : str) :
  concat ((if truthy cur then result ++ [cur] else result) : list str)
  = concat result ++ cur.
Proof.
  destruct cur as [| c cur]; simpl.
  - rewrite app_nil_r. reflexivity.
  - rewrite concat_app. simpl. rewrite app_nil_r. reflexivity.
Qed.

Lemma flush_nonempty (result : list str) (cur : str) :
  Forall (fun s => s <> []) result ->
  Forall (fun s => s <> []) (if truthy cur then result ++ [cur] else result).
Proof.
  intros H. destruct cur as [| c cur]; simpl; [assumption |].
  apply Forall_app. split; [assumption |].
  constructor; [discriminate | constructor].
Qed.

(** The loop over the parts: no empty segment, and nothing but text of
    the parts and separators between them, in order. *)
Lemma splitParts_content (rec : str -> option (list str)) (separator : str) :
  (forall part sub, maxSize < len part -> rec part = Some sub ->
      Forall (fun s => s <> []) sub /\ concat sub `sublist_of` part) ->
  forall parts result cur segs,
    splitParts rec separator maxSize parts result cur = Some segs ->
    Forall (fun s => s <> []) result ->
    Forall (fun s => s <> []) segs /\
    concat segs `sublist_of`
      concat result ++ cur ++ concat (map (fun p => separator ++ p) parts).
Proof.
  intros Hrec. induction parts as [| part parts IH];
    intros result cur segs H Hres; cbn [splitParts] in H.
  - injection H as <-. split; [apply flush_nonempty; assumption |].
    rewrite flush_concat. simpl. rewrite app_nil_r. reflexivity.
  - cbn [map concat].
    destruct (len cur + len part + len separator <=? maxSize).
    + destruct (IH _ _ _ H Hres) as [Hne Hsub]. split; [exact Hne |].
      etransitivity; [exact Hsub |].
      apply sublist_app; [reflexivity |].
      rewrite <- !app_assoc.
      apply sublist_app; [reflexivity |].
      apply sublist_app; [| reflexivity].
      destruct (truthy cur); [reflexivity | apply sublist_nil_l].
    + pose proof (flush_nonempty result cur Hres) as Hflush.
      pose proof (flush_concat result cur) as Hcat.
      destruct (Z.ltb_spec maxSize (len part)) as [Hbig | Hsmall].
      * destruct (rec part) as [sub |] eqn:E; [| discriminate].
        destruct (Hrec part sub Hbig E) as [Hsubne Hsubpart].
        destruct (IH _ _ _ H) as [Hne Hsub].
        { apply Forall_app. split; assumption. }
        split; [exact Hne |].
        etransitivity; [exact Hsub |].
        rewrite concat_app, Hcat. cbn [app].
        rewrite <- !app_assoc.
        apply sublist_app; [reflexivity |].
        apply sublist_app; [reflexivity |].
        apply sublist_inserts_l.
        apply sublist_app; [assumption | reflexivity].
      * destruct (IH _ _ _ H Hflush) as [Hne Hsub].
        split; [exact Hne |].
        etransitivity; [exact Hsub |].
        rewrite Hcat. rewrite <- !app_assoc.
        apply sublist_app; [reflexivity |].
        apply sublist_app; [reflexivity |].
        apply sublist_inserts_l. reflexivity.
Qed.

Lemma join_as_concat (separator part : str) (rest : list str) :
  join separator (part :: rest)
  = part ++ concat (map (fun p => separator ++ p) rest).
Proof.
  revert part. induction rest as [| p rest IH]; intros part.
  - simpl. rewrite app_nil_r. reflexivity.
  - rewrite join_cons by discriminate. rewrite IH.
    cbn [map concat]. rewrite <- app_assoc. reflexivity.
Qed.

(** The same, from the start of the loop and against the joined parts. *)
Lemma splitParts_content_start (rec : str -> option (list str))
    (separator : str) (parts : list str) (segs : list str) :
  (forall part sub, maxSize < len part -> rec part = Some sub ->
      Forall (fun s => s <> []) sub /\ concat sub `sublist_of` part) ->
  splitParts rec separator maxSize parts [] [] = Some segs ->
  Forall (fun s => s <> []) segs /\
  concat segs `sublist_of` join separator parts.
Proof.
  intros Hrec H. destruct parts as [| part rest].
  - injection H as <-. split; [constructor | reflexivity].
  - rewrite join_as_concat. cbn [splitParts] in H.
    cbn [truthy app] in H.
    destruct (len [] + len part + len separator <=? maxSize).
    + destruct (splitParts_content rec separator Hrec _ _ _ _ H) as [Hne Hsub];
        [constructor |].
      split; [exact Hne | exact Hsub].
    + destruct (Z.ltb_spec maxSize (len part)) as [Hbig | Hsmall].
      * destruct (rec part) as [sub |] eqn:E; [| discriminate].
        destruct (Hrec part sub Hbig E) as [Hsubne Hsubpart].
        destruct (splitParts_content rec separator Hrec _ _ _ _ H)
          as [Hne Hsub]; [assumption |].
        split; [exact Hne |].
        etransitivity; [exact Hsub |]. cbn [app].
        apply sublist_app; [assumption | reflexivity].
      * destruct (splitParts_content rec separator Hrec _ _ _ _ H)
          as [Hne Hsub]; [constructor |].
        split; [exact Hne | exact Hsub].
Qed.

Lemma recursiveSplit_content (separators : list str) :
  forall text segs,
    recursiveSplit separators text maxSize = Some segs ->
    (maxSize < len text -> Forall (fun s => s <> []) segs) /\
    concat segs `sublist_of` text.
Proof.
  assert (forall text segs,
             maxSize < len text -> forceSplit text maxSize = Some segs ->
             (maxSize < len text -> Forall (fun s => s <> []) segs) /\
             concat segs `sublist_of` text) as Hforce.
  { intros text segs _ H.
    destruct (forceSplit_pieces text maxSize maxSize_pos)
      as (pieces & E & Hcat & Hne & _).
    rewrite E in H. injection H as <-.
    split; [intros _; exact Hne | rewrite Hcat; reflexivity]. }
  induction separators as [| separator remaining IH]; intros text segs H;
    cbn [recursiveSplit] in H.
  - destruct (Z.leb_spec (len text) maxSize).
    + injection H as <-. split; [lia |]. simpl. rewrite app_nil_r. reflexivity.
    + apply Hforce; assumption.
  - destruct (Z.leb_spec (len text) maxSize).
    + injection H as <-. split; [lia |]. simpl. rewrite app_nil_r. reflexivity.
    + destruct (truthy separator) eqn:Etruthy; [| apply Hforce; assumption].
      assert (separator <> []) as Hsep by (intros ->; discriminate).
      destruct (splitParts_content_start
                  (fun part => recursiveSplit remaining part maxSize)
                  separator (split text separator) segs) as [Hne Hsub].
      * intros part sub Hbig Hsub.
        destruct (IH part sub Hsub) as [Hn Hs]. split; [apply Hn; lia | exact Hs].
      * exact H.
      * split; [intros _; exact Hne |].
        rewrite (split_join separator text Hsep) in Hsub. exact Hsub.
Qed.

(** *** What the split drops *)

Lemma Restores_app (separators : list str) (segs1 segs2 : list str)
    (text1 text2 : str) :
  Restores separators segs1 text1 ->
  Restores separators segs2 text2 ->
  Restores separators (segs1 ++ segs2) (text1 ++ text2).
Proof.
  intros H1 H2. induction H1 as [| seg segs text _ IH | sep segs text Hin _ IH].
  - exact H2.
  - cbn [app]. rewrite <- app_assoc. apply restores_segment. exact IH.
  - rewrite <- app_assoc. apply restores_separator; assumption.
Qed.

Lemma Restores_concat (separators : list str) (segs : list str) :
  Restores separators segs (concat segs).
Proof.
  induction segs as [| seg segs IH]; [constructor |].
  cbn [concat]. apply restores_segment. exact IH.
Qed.

Lemma Restores_segment_only (separators : list str) (seg : str) :
  Restores separators [seg] seg.
Proof.
  pose proof (Restores_concat separators [seg]) as H.
  cbn [concat] in H. rewrite app_nil_r in H. exact H.
Qed.

Lemma Restores_separator_only (separators : list str) (sep : str) :
  In sep separators -> Restores separators [] sep.
Proof.
  intros Hin. rewrite <- (app_nil_r sep).
  apply restores_separator; [exact Hin | constructor].
Qed.

Lemma Restores_then_separator (separators : list str) (segs : list str)
    (text sep : str) :
  In sep separators ->
  Restores separators segs text -> Restores separators segs (text ++ sep).
Proof.
  intros Hin H. rewrite <- (app_nil_r segs).
  apply Restores_app; [exact H | apply Restores_separator_only; exact Hin].
Qed.

Lemma Restores_mono (separators separators' : list str) (segs : list str)
    (text : str) :
  (forall sep, In sep separators -> In sep separators') ->
  Restores separators segs text -> Restores separators' segs text.
Proof.
  intros Hincl H. induction H as [| seg segs text _ IH | sep segs text Hin _ IH].
  - constructor.
  - apply restores_segment. exact IH.
  - apply restores_separator; [apply Hincl; exact Hin | exact IH].
Qed.

(** What is restored holds the segments as a subsequence. *)
Lemma Restores_sublist (separators : list str) (segs : list str) (text : str) :
  Restores separators segs text -> concat segs `sublist_of` text.
Proof.
  induction 1 as [| seg segs text _ IH | sep segs text _ _ IH].
  - reflexivity.
  - cbn [concat]. apply sublist_app; [reflexivity | exact IH].
  - apply sublist_inserts_l. exact IH.
Qed.

Lemma flush_restores (separators : list str) (result : list str)
    (cur before : str) :
  Restores separators result before ->
  Restores separators (if truthy cur then result ++ [cur] else result)
    (before ++ cur).
Proof.
  intros H. destruct cur as [| c cur]; cbn [truthy].
  - rewrite app_nil_r. exact H.
  - apply Restores_app; [exact H | apply Restores_segment_only].
Qed.

(** The loop over the parts: between the segments it leaves out nothing
    but copies of the separator. *)
Lemma splitParts_restores (separators : list str)
    (rec : str -> option (list str)) (separator : str) :
  In separator separators ->
  (forall part sub, rec part = Some sub -> Restores separators sub part) ->
  forall parts result cur segs before,
    splitParts rec separator maxSize parts result cur = Some segs ->
    Restores separators result before ->
    Restores separators segs
      (before ++ cur ++ concat (map (fun p => separator ++ p) parts)).
Proof.
  intros Hin Hrec. induction parts as [| part parts IH];
    intros result cur segs before H Hres; cbn [splitParts] in H.
  - injection H as <-. cbn [map concat]. rewrite app_nil_r.
    apply flush_restores. exact Hres.
  - cbn [map concat].
    set (rest := concat (map (fun p => separator ++ p) parts)) in *.
    destruct (len cur + len part + len separator <=? maxSize).
    + destruct cur as [| c cur]; cbn [truthy] in H.
      * change ([] ++ [] ++ part) with part in H.
        replace (before ++ [] ++ (separator ++ part) ++ rest)
          with ((before ++ separator) ++ part ++ rest)
          by (cbn [app]; rewrite <- !app_assoc; reflexivity).
        apply (IH _ _ _ _ H). apply Restores_then_separator; assumption.
      * replace (before ++ (c :: cur) ++ (separator ++ part) ++ rest)
          with (before ++ ((c :: cur) ++ separator ++ part) ++ rest)
          by (rewrite <- !app_assoc; reflexivity).
        apply (IH _ _ _ _ H Hres).
    + pose proof (flush_restores separators result cur before Hres) as Hflush.
      destruct (maxSize <? len part).
      * destruct (rec part) as [sub |] eqn:E; [| discriminate].
        replace (before ++ cur ++ (separator ++ part) ++ rest)
          with ((((before ++ cur) ++ separator) ++ part) ++ [] ++ rest)
          by (cbn [app]; rewrite <- !app_assoc; reflexivity).
        apply (IH _ _ _ _ H).
        apply Restores_app; [| apply (Hrec _ _ E)].
        apply Restores_then_separator; assumption.
      * replace (before ++ cur ++ (separator ++ part) ++ rest)
          with (((before ++ cur) ++ separator) ++ part ++ rest)
          by (rewrite <- !app_assoc; reflexivity).
        apply (IH _ _ _ _ H).
        apply Restores_then_separator; assumption.
Qed.

(** The same, from the start of the loop and against the joined parts. *)
Lemma splitParts_restores_start (separators : list str)
    (rec : str -> option (list str)) (separator : str) (parts segs : list str) :
  In separator separators ->
  (forall part sub, rec part = Some sub -> Restores separators sub part) ->
  splitParts rec separator maxSize parts [] [] = Some segs ->
  Restores separators segs (join separator parts).
Proof.
  intros Hin Hrec H. destruct parts as [| part rest].
  - injection H as <-. constructor.
  - rewrite join_as_concat. cbn [splitParts] in H. cbn [truthy app] in H.
    destruct (len [] + len part + len separator <=? maxSize).
    + apply (splitParts_restores separators rec separator Hin Hrec
               rest [] part segs [] H).
      constructor.
    + destruct (maxSize <? len part).
      * destruct (rec part) as [sub |] eqn:E; [| discriminate].
        pose proof (splitParts_restores separators rec separator Hin Hrec
                      rest sub [] segs part H (Hrec _ _ E)) as Hr.
        cbn [app] in Hr. exact Hr.
      * apply (splitParts_restores separators rec separator Hin Hrec
                 rest [] part segs [] H).
        constructor.
Qed.

Lemma recursiveSplit_restores (separators' : list str) :
  forall separators text segs,
    (forall sep, In sep separators -> In sep separators') ->
    recursiveSplit separators text maxSize = Some segs ->
    Restores separators' segs text.
Proof.
  assert (forall text segs,
             forceSplit text maxSize = Some segs ->
             Restores separators' segs text) as Hforce.
  { intros text segs H.
    destruct (forceSplit_pieces text maxSize maxSize_pos)
      as (pieces & E & Hcat & _).
    rewrite E in H. injection H as <-.
    pose proof (Restores_concat separators' pieces) as Hr.
    rewrite Hcat in Hr. exact Hr. }
  intros separators.
  induction separators as [| separator remaining IH]; intros text segs Hincl H;
    cbn [recursiveSplit] in H.
  - destruct (len text <=? maxSize).
    + injection H as <-. apply Restores_segment_only.
    + apply Hforce. exact H.
  - destruct (len text <=? maxSize).
    + injection H as <-. apply Restores_segment_only.
    + destruct (truthy separator) eqn:Etruthy; [| apply Hforce; exact H].
      assert (separator <> []) as Hsep by (intros ->; discriminate).
      rewrite <- (split_join separator text Hsep).
      apply (splitParts_restores_start separators'
               (fun part => recursiveSplit remaining part maxSize)
               separator (split text separator) segs).
      * apply Hincl. left. reflexivity.
      * intros part sub Hsub. apply (IH part sub); [| exact Hsub].
        intros sep Hs. apply Hincl. right. exact Hs.
      * exact H.
Qed.

End RecursiveSplitContent.

(** X2 (nothing invented, nothing reordered, only separators dropped): for
    a size bound of at least 1 the segments of [recursiveSplit], put
    together, are a subsequence of the text, so the split never adds,
    repeats or reorders a character; and what it drops are separators: the
    text is the segments, in order, with nothing but separators of the
    list before, between and after them. *)
Theorem recursiveSplit_subsequence (separators : list str) (text : str)
    (maxSize : Z) :
  1 <= maxSize ->
  exists segs,
    recursiveSplit separators text maxSize = Some segs /\
    concat segs `sublist_of` text /\
    Restores separators segs text.
Proof.
  intros Hm.
  destruct (recursiveSplit_within maxSize Hm separators text) as (segs & E & _).
  exists segs. split; [exact E |]. split.
  - apply (recursiveSplit_content maxSize Hm separators text segs E).
  - apply (recursiveSplit_restores maxSize Hm separators separators text segs);
      [auto | exact E].
Qed.

(** Three words, bound 5: the two spaces are dropped, the letters stay. *)
Lemma recursiveSplit_subsequence_witness :
  exists segs,
    recursiveSplit CONSTANTS.CHUNKING.SEPARATORS (lit "hello world foo") 5
      = Some segs /\
    concat segs `sublist_of` lit "hello world foo" /\
    Restores CONSTANTS.CHUNKING.SEPARATORS segs (lit "hello world foo").
Proof.
  apply (recursiveSplit_subsequence CONSTANTS.CHUNKING.SEPARATORS
           (lit "hello world foo") 5).
  lia.
Defined.

(** X3 (no empty segment): for a size bound of at least 1, a text longer
    than the bound is split into segments none of which is empty. *)
Theorem recursiveSplit_no_empty_segment (separators : list str) (text : str)
    (maxSize : Z) :
  1 <= maxSize -> maxSize < len text ->
  exists segs,
    recursiveSplit separators text maxSize = Some segs /\
    Forall (fun s => s <> []) segs.
Proof.
  intros Hm Hlong.
  destruct (recursiveSplit_within maxSize Hm separators text) as (segs & E & _).
  exists segs. split; [exact E |].
  apply (recursiveSplit_content maxSize Hm separators text segs E). exact Hlong.
Qed.

(** Empty parts between doubled separators leave no segment behind. *)
Lemma recursiveSplit_no_empty_segment_witness :
  exists segs,
    recursiveSplit [lit ","] (lit "ab,,,,cd") 2 = Some segs /\
    Forall (fun s => s <> []) segs.
Proof.
  apply (recursiveSplit_no_empty_segment [lit ","] (lit "ab,,,,cd") 2).
  - lia.
  - vm_compute. reflexivity.
Defined.

(** X4 (no separator in the text): when no non-empty separator of the list
    occurs in a text longer than the bound, the recursive split is the
    forced split: the consecutive windows of [maxSize] characters, which
    put together are the text. *)
Theorem recursiveSplit_without_separators (separators : list str) (text : str)
    (maxSize : Z) :
  1 <= maxSize -> maxSize < len text ->
  (forall sep, In sep separators -> sep <> [] -> ~ Contains text sep) ->
  recursiveSplit separators text maxSize = forceSplit text maxSize /\
  exists pieces,
    recursiveSplit separators text maxSize = Some pieces /\
    concat pieces = text /\
    (forall j piece, pieces !! j = Some piece -> piece = window text maxSize j).
Proof.
  intros Hm Hlong Habsent.
  assert (recursiveSplit separators text maxSize = forceSplit text maxSize) as E.
  { induction separators as [| sep rest IH]; cbn [recursiveSplit];
      destruct (Z.leb_spec (len text) maxSize); try lia; [reflexivity |].
    destruct (truthy sep) eqn:Et; [| reflexivity].
    assert (sep <> []) as Hsep by (intros ->; discriminate).
    rewrite split_absent; [| assumption |].
    - cbn [splitParts truthy app].
      pose proof (len_nonneg sep).
      destruct (Z.leb_spec (len (@nil ascii) + len text + len sep) maxSize)
        as [Hfit |]; [change (len (@nil ascii)) with 0 in Hfit; lia |].
      destruct (Z.ltb_spec maxSize (len text)); [| lia].
      rewrite IH.
      + destruct (forceSplit text maxSize); reflexivity.
      + intros s Hin. apply Habsent. right. exact Hin.
    - apply includes_not_Contains. apply Habsent; [left; reflexivity | assumption]. }
  split; [exact E |].
  destruct (forceSplit_pieces text maxSize Hm) as (pieces & Ef & Hcat & _ & Hwin).
  exists pieces. rewrite E. split; [exact Ef |]. split; assumption.
Qed.

(** Seven letters, no separator among them, bound 3. *)
Lemma recursiveSplit_without_separators_witness :
  recursiveSplit CONSTANTS.CHUNKING.SEPARATORS (lit "abcdefg") 3
  = forceSplit (lit "abcdefg") 3.
Proof.
  apply (recursiveSplit_without_separators CONSTANTS.CHUNKING.SEPARATORS
           (lit "abcdefg") 3).
  - lia.
  - vm_compute. reflexivity.
  - intros sep Hin Hsep. apply includes_not_Contains.
    unfold CONSTANTS.CHUNKING.SEPARATORS in Hin. cbn [In] in Hin.
    repeat (destruct Hin as [<- | Hin];
            [first [ vm_compute; reflexivity
                   | exfalso; apply Hsep; reflexivity ] |]).
    contradiction.
Defined.

(** ** Trimming *)

Section Trim.

Lemma trimStart_idempotent (s : str) : trimStart (trimStart s) = trimStart s.
Proof.
  induction s as [| c s IH]; simpl; [reflexivity |].
  destruct (is_ws c) eqn:E; [exact IH |]. simpl. rewrite E. reflexivity.
Qed.

(** What [trimStart] leaves starts with a character that is not white
    space, if it leaves anything. *)
Lemma trimStart_head (s : str) :
  trimStart s = [] \/ exists c rest, trimStart s = c :: rest /\ is_ws c = false.
Proof.
  induction s as [| c s IH]; simpl; [left; reflexivity |].
  destruct (is_ws c) eqn:E; [exact IH |]. right. eauto.
Qed.

Lemma trimEnd_snoc (s : str) (c : ascii) :
  trimEnd (s ++ [c]) = if is_ws c then trimEnd s else s ++ [c].
Proof.
  unfold trimEnd. rewrite rev_app_distr. simpl.
  destruct (is_ws c); [reflexivity |].
  simpl. rewrite rev_involutive. reflexivity.
Qed.

Lemma trimEnd_cons (c : ascii) (s : str) :
  is_ws c = false -> trimEnd (c :: s) = c :: trimEnd s.
Proof.
  intros Hc. induction s as [| d s IH] using rev_ind.
  - change [c] with ([] ++ [c]). rewrite trimEnd_snoc, Hc. reflexivity.
  - rewrite app_comm_cons, !trimEnd_snoc.
    destruct (is_ws d); [exact IH | reflexivity].
Qed.

Lemma trimEnd_idempotent (s : str) : trimEnd (trimEnd s) = trimEnd s.
Proof.
  unfold trimEnd. rewrite rev_involutive, trimStart_idempotent. reflexivity.
Qed.

(** Trimming twice is trimming once. *)
Lemma trim_idempotent (s : str) : trim (trim s) = trim s.
Proof.
  unfold trim.
  assert (trimStart (trimEnd (trimStart s)) = trimEnd (trimStart s)) as ->.
  { destruct (trimStart_head s) as [-> | (c & rest & -> & Hc)]; [reflexivity |].
    rewrite trimEnd_cons by assumption. simpl. rewrite Hc. reflexivity. }
  apply trimEnd_idempotent.
Qed.

End Trim.

(** X5 (chunks without surrounding white space): every chunk of a text
    longer than the bound starts and ends without white space.  A text
    within the bound comes back as one chunk whose content is the text
    itself, so that chunk is without surrounding white space exactly when
    the text is: white space around a short text is kept. *)
Theorem chunk_contents_trimmed (text : str) (config : ChunkConfig)
    (chunks : list Chunk.t) :
  chunkText text config = Some chunks ->
  (cfgMaxChunkSize config < len text \/ trimmed text ->
   Forall (fun c => trimmed (Chunk.content c)) chunks) /\
  (len text <= cfgMaxChunkSize config ->
   map Chunk.content chunks = [text] /\
   Forall (fun c => trimmed (Chunk.content c) <-> trimmed text) chunks).
Proof.
  unfold chunkText. intros H.
  destruct (Z.leb_spec (len text) (cfgMaxChunkSize config)).
  - injection H as <-. cbn [map Chunk.content]. split.
    + intros [| Htrim]; [lia |].
      constructor; [exact Htrim | constructor].
    + intros _. split; [reflexivity |].
      constructor; [cbn [Chunk.content]; reflexivity | constructor].
  - split; [intros _ | lia].
    destruct (recursiveSplit _ text _) as [splits |]; [| discriminate].
    injection H as <-. apply imap_Forall. intros i seg _.
    unfold trimmed, chunkAt. cbn [Chunk.content]. apply trim_idempotent.
Qed.

(** A long text with blanks around the cut points, and a short text that
    keeps its blanks. *)
Lemma chunk_contents_trimmed_witness :
  (exists chunks,
     chunkText (lit "  hello   world  ")
       {| maxChunkSize := Some 6; overlap := Some 2; separators := None |}
       = Some chunks /\
     Forall (fun c => trimmed (Chunk.content c)) chunks) /\
  (exists chunks,
     chunkText (lit " a") emptyConfig = Some chunks /\
     map Chunk.content chunks = [ lit " a" ] /\
     Forall (fun c => ~ trimmed (Chunk.content c)) chunks).
Proof.
  split.
  - destruct (chunkText (lit "  hello   world  ")
                {| maxChunkSize := Some 6; overlap := Some 2;
                   separators := None |})
      as [chunks |] eqn:E; [| vm_compute in E; discriminate E].
    exists chunks. split; [reflexivity |].
    apply (chunk_contents_trimmed _ _ _ E). left. vm_compute. reflexivity.
  - destruct (chunkText (lit " a") emptyConfig) as [chunks |] eqn:E;
      [| vm_compute in E; discriminate E].
    exists chunks. split; [reflexivity |].
    destruct (chunk_contents_trimmed _ _ _ E) as [_ Hshort].
    destruct Hshort as [Hc Hiff]; [vm_compute; discriminate |].
    split; [exact Hc |].
    eapply List.Forall_impl; [| exact Hiff].
    intros c Hc' Ht. apply Hc' in Ht. vm_compute in Ht. discriminate Ht.
Defined.

(** ** More on the classifier *)

Section ClassifierRules.

Lemma lower_char_idempotent (c : ascii) :
  lower_char (lower_char c) = lower_char c.
Proof. destruct c as [[] [] [] [] [] [] [] []]; reflexivity. Qed.

Lemma toLowerCase_idempotent (s : str) :
  toLowerCase (toLowerCase s) = toLowerCase s.
Proof.
  unfold toLowerCase. rewrite List.map_map.
  apply List.map_ext. intros c. apply lower_char_idempotent.
Qed.

End ClassifierRules.

(** X6 (letter case does not matter): the classifier gives a page and the
    same page with URL and content in lower case the same version,
    framework, document type, keywords and section. *)
Theorem extractMetadata_case_insensitive (page : Page.t) :
  extractMetadata (lowerCased page) = extractMetadata page.
Proof.
  unfold extractMetadata, lowerCased.
  cbn [Page.url Page.content Page.metadata].
  rewrite !toLowerCase_idempotent. reflexivity.
Qed.

(** X7 (version rule): the version is "3.x" exactly when the lower-cased URL
    contains "/v3/" or "/3.x/"; it is "4.x" otherwise, whatever the
    content. *)
Theorem version_rule (page : Page.t) :
  let url := toLowerCase (Page.url page) in
  let version := Meta.version (extractMetadata page) in
  (version = lit "3.x" <->
   Contains url (lit "/v3/") \/ Contains url (lit "/3.x/")) /\
  (version = lit "4.x" <->
   ~ (Contains url (lit "/v3/") \/ Contains url (lit "/3.x/"))).
Proof.
  intros url version. subst version.
  unfold extractMetadata. cbn [Meta.version]. fold url.
  rewrite <- !includes_Contains.
  destruct (includes url (lit "/v3/")), (includes url (lit "/3.x/"));
    cbn [orb]; (split; split; intros H; try reflexivity; try discriminate;
                try (left; reflexivity); try (right; reflexivity);
                try (destruct H; discriminate);
                try (intros [|]; discriminate);
                try (exfalso; apply H; auto)).
Qed.

(** X8 (document type rule): on the lower-cased URL alone, "reference" if
    it contains "/reference/" or "/api/"; else "tutorial" if it contains
    "/tutorial/"; else "migration" if it contains "/migration/"; else
    "guide". *)
Theorem docType_rule (page : Page.t) :
  let url := toLowerCase (Page.url page) in
  let docType := Meta.docType (extractMetadata page) in
  let reference :=
    Contains url (lit "/reference/") \/ Contains url (lit "/api/") in
  let tutorial := Contains url (lit "/tutorial/") in
  let migration := Contains url (lit "/migration/") in
  (reference -> docType = lit "reference") /\
  (~ reference -> tutorial -> docType = lit "tutorial") /\
  (~ reference -> ~ tutorial -> migration -> docType = lit "migration") /\
  (~ reference -> ~ tutorial -> ~ migration -> docType = lit "guide").
Proof.
  intros url docType reference tutorial migration.
  subst docType reference tutorial migration.
  unfold extractMetadata. cbn [Meta.docType]. fold url.
  rewrite <- !includes_Contains.
  destruct (includes url (lit "/reference/")), (includes url (lit "/api/")),
    (includes url (lit "/tutorial/")), (includes url (lit "/migration/"));
    cbn [orb];
    repeat split; intros; try reflexivity;
    repeat match goal with
           | H : _ \/ _ |- _ => destruct H
           | H : ~ _ |- _ => exfalso; apply H; auto
           end; try discriminate; try congruence.
Qed.

(** A URL with both "/api/" and "/tutorial/" is a reference page. *)
Lemma docType_rule_witness :
  Meta.docType
    (extractMetadata
       (Scenario.pageAt (lit "https://docs.example.com/API/tutorial/x") (lit "")))
  = lit "reference".
Proof.
  apply (docType_rule
           (Scenario.pageAt (lit "https://docs.example.com/API/tutorial/x") (lit ""))).
  right. apply includes_Contains. vm_compute. reflexivity.
Defined.

(** X9 (keywords): the keywords are headings of the page in lower case, in
    the order of the page, none empty, at most ten; when the page has at
    most ten non-empty headings they are all of them. *)
Theorem keywords_from_headings (page : Page.t) :
  let headings := Page.headings (Page.metadata page) in
  let keywords := Meta.keywords (extractMetadata page) in
  keywords `sublist_of` map toLowerCase headings /\
  (length keywords <= 10)%nat /\
  Forall (fun k => k <> [] /\ toLowerCase k = k) keywords /\
  ((length (List.filter (fun h => (0 <? len h)%Z) headings) <= 10)%nat ->
   keywords = map toLowerCase (List.filter (fun h => 0 <? len h) headings)).
Proof.
  intros headings keywords. subst keywords.
  unfold extractMetadata. cbn [Meta.keywords]. fold headings.
  split; [| split; [| split]].
  - etransitivity; [apply sublist_take |].
    apply (fmap_sublist toLowerCase). apply filter_sublist.
  - rewrite length_take. lia.
  - apply Forall_take. apply List.Forall_map. apply List.Forall_forall.
    intros h Hh. apply List.filter_In in Hh as [_ Hlen].
    apply Z.ltb_lt in Hlen. split.
    + intros Hnil. apply (f_equal (@length _)) in Hnil.
      rewrite toLowerCase_length in Hnil. unfold len in Hlen.
      simpl in Hnil. lia.
    + apply toLowerCase_idempotent.
  - intros Hfew. apply take_ge. rewrite length_map. exact Hfew.
Qed.

(** Three headings, one of them empty. *)
Lemma keywords_from_headings_witness :
  Meta.keywords
    (extractMetadata
       {| Page.url := lit "u"; Page.title := lit "t"; Page.content := lit "";
          Page.links := [];
          Page.metadata :=
            {| Page.description := lit "";
               Page.headings := [lit "Install"; lit ""; lit "Next Steps"];
               Page.internalLinks := []; Page.externalLinks := [];
               Page.scrapedAt := 0 |} |})
  = [lit "install"; lit "next steps"].
Proof.
  apply keywords_from_headings. vm_compute. lia.
Defined.

(** ** More on the assembler *)

Section AssemblerStructure.

Variable chunkConfig : option ChunkConfig.

Lemma processScrapedPages_cons (page : Page.t) (pages : list Page.t) :
  processScrapedPages (page :: pages) chunkConfig =
  match pageDocuments page chunkConfig, processScrapedPages pages chunkConfig with
  | Some group, Some documents => Some (group ++ documents)
  | _, _ => None
  end.
Proof.
  cbn [processScrapedPages]. unfold pageDocuments.
  destruct (chunkText _ _); [| reflexivity].
  destruct (processScrapedPages pages chunkConfig); reflexivity.
Qed.

Lemma chunkText_no_section (text : str) (config : ChunkConfig)
    (chunks : list Chunk.t) :
  chunkText text config = Some chunks ->
  Forall (fun chunk => Chunk.section (Chunk.metadata chunk) = None) chunks.
Proof.
  unfold chunkText. intros H.
  destruct (len text <=? cfgMaxChunkSize config).
  - injection H as <-. constructor; [reflexivity | constructor].
  - destruct (recursiveSplit _ text _) as [splits |]; [| discriminate].
    injection H as <-. apply imap_Forall. intros i seg _. reflexivity.
Qed.

Lemma chunkText_positions (text : str) (config : ChunkConfig)
    (chunks : list Chunk.t) :
  chunkText text config = Some chunks ->
  map (fun c => Chunk.chunkIndex (Chunk.metadata c)) chunks
    = seq 0 (length chunks) /\
  Forall (fun c => Chunk.totalChunks (Chunk.metadata c) = length chunks) chunks.
Proof.
  unfold chunkText. intros H.
  destruct (len text <=? cfgMaxChunkSize config).
  - injection H as <-. split; [reflexivity |].
    constructor; [reflexivity | constructor].
  - destruct (recursiveSplit _ text _) as [splits |]; [| discriminate].
    injection H as <-. rewrite length_imap. split.
    + apply imap_positions. intros i x. reflexivity.
    + apply imap_Forall. intros i x _. reflexivity.
Qed.

Lemma pageDocuments_shape (page : Page.t) (group : list Doc.t) :
  pageDocuments page chunkConfig = Some group -> documentsOfPage page group.
Proof.
  unfold pageDocuments. intros H.
  pose proof (chunkText_positions (Page.content page)
                (default emptyConfig chunkConfig)) as Hidx.
  pose proof (chunkText_no_section (Page.content page)
                (default emptyConfig chunkConfig)) as Hsec.
  destruct (chunkText _ _) as [chunks |]; [| discriminate].
  destruct (Hidx chunks eq_refl) as [Hseq Htotal]. specialize (Hsec chunks eq_refl).
  injection H as <-.
  unfold documentsOfPage. rewrite length_map. split.
  - apply List.Forall_map.
    apply List.Forall_forall. intros chunk Hin.
    rewrite List.Forall_forall in Htotal, Hsec.
    unfold documentOf.
    cbn [Doc.url Doc.title Doc.metadata fmap option_fmap option_map
         Doc.section Doc.totalChunks].
    rewrite (Htotal chunk Hin), (Hsec chunk Hin).
    repeat split.
  - rewrite List.map_map. rewrite <- Hseq. rewrite List.map_map. reflexivity.
Qed.

End AssemblerStructure.

(** A v3 guide. *)
Lemma version_rule_witness :
  Meta.version
    (extractMetadata
       (Scenario.pageAt (lit "https://docs.example.com/V3/guide.html") (lit "")))
  = lit "3.x".
Proof.
  apply (version_rule
           (Scenario.pageAt (lit "https://docs.example.com/V3/guide.html") (lit ""))).
  left. apply includes_Contains. vm_compute. reflexivity.
Defined.

(** X10 (batches compose): the documents of two batches of pages put one
    after the other are the documents of the first followed by those of
    the second; the call on the whole returns exactly when both calls
    return. *)
Theorem processScrapedPages_app (pages1 pages2 : list Page.t)
    (chunkConfig : option ChunkConfig) :
  processScrapedPages (pages1 ++ pages2) chunkConfig =
  match processScrapedPages pages1 chunkConfig,
        processScrapedPages pages2 chunkConfig with
  | Some documents1, Some documents2 => Some (documents1 ++ documents2)
  | _, _ => None
  end.
Proof.
  induction pages1 as [| page pages1 IH].
  - simpl. destruct (processScrapedPages pages2 chunkConfig); reflexivity.
  - rewrite <- app_comm_cons, !processScrapedPages_cons, IH.
    destruct (pageDocuments page chunkConfig) as [group |]; [| reflexivity].
    destruct (processScrapedPages pages1 chunkConfig) as [d1 |];
      [| reflexivity].
    destruct (processScrapedPages pages2 chunkConfig) as [d2 |];
      [| reflexivity].
    rewrite app_assoc. reflexivity.
Qed.

(** X11 (documents page by page): the documents returned for a batch are,
    page after page in the order of the batch, the documents of each page;
    those of one page carry its URL, its title and its first heading as
    section, and are numbered 0 to n-1 with n as [totalChunks], n being
    the number of documents of that page. *)
Theorem processScrapedPages_groups (pages : list Page.t)
    (chunkConfig : option ChunkConfig) (documents : list Doc.t) :
  processScrapedPages pages chunkConfig = Some documents ->
  exists groups,
    documents = concat groups /\ Forall2 documentsOfPage pages groups.
Proof.
  revert documents. induction pages as [| page pages IH]; intros documents H.
  - injection H as <-. exists []. split; [reflexivity | constructor].
  - rewrite processScrapedPages_cons in H.
    destruct (pageDocuments page chunkConfig) as [group |] eqn:Eg;
      [| discriminate].
    destruct (processScrapedPages pages chunkConfig) as [rest |];
      [| discriminate].
    injection H as <-. destruct (IH rest eq_refl) as (groups & -> & Hall).
    exists (group :: groups). split; [reflexivity |].
    constructor; [| exact Hall].
    apply (pageDocuments_shape chunkConfig). exact Eg.
Qed.

(** Two pages, the first cut into three documents, the second into one. *)
Lemma processScrapedPages_groups_witness :
  let config := Some {| maxChunkSize := Some 5; overlap := Some 2;
                        separators := None |} in
  let pages := [ Scenario.pageAt Scenario.urlA (lit "hello world foo");
                 Scenario.pageAt Scenario.urlB (lit "short") ] in
  exists documents groups,
    processScrapedPages pages config = Some documents /\
    length documents = 4%nat /\
    documents = concat groups /\ Forall2 documentsOfPage pages groups.
Proof.
  intros config pages.
  destruct (processScrapedPages pages config) as [documents |] eqn:E;
    [| vm_compute in E; discriminate E].
  destruct (processScrapedPages_groups pages config documents E)
    as (groups & Hcat & Hall).
  exists documents, groups. split; [reflexivity |].
  split; [| split; assumption].
  vm_compute in E. injection E as <-. reflexivity.
Defined.

(** X12 (pages that fit): when every page of the batch is no longer than
    the size bound, the batch gives exactly one document per page, in
    order, whose content is the content of the page, unchanged. *)
Theorem processScrapedPages_short_pages (pages : list Page.t)
    (chunkConfig : option ChunkConfig) :
  Forall (fun page => len (Page.content page)
                      <= cfgMaxChunkSize (default emptyConfig chunkConfig))
         pages ->
  exists documents,
    processScrapedPages pages chunkConfig = Some documents /\
    map Doc.content documents = map Page.content pages /\
    map Doc.url documents = map Page.url pages.
Proof.
  induction 1 as [| page pages Hpage _ (documents & E & Hc & Hu)].
  - exists []. repeat split.
  - cbn [processScrapedPages].
    rewrite (chunkText_short _ _ Hpage), E.
    eexists. split; [reflexivity |].
    cbn [map app]. rewrite Hc, Hu. split; reflexivity.
Qed.

(** Two short pages under the default bound of 1000. *)
Lemma processScrapedPages_short_pages_witness :
  exists documents,
    processScrapedPages [ Scenario.pageAt Scenario.urlA (lit " one ");
                          Scenario.pageAt Scenario.urlB (lit "") ] None
      = Some documents /\
    map Doc.content documents = [ lit " one "; lit "" ].
Proof.
  destruct (processScrapedPages_short_pages
              [ Scenario.pageAt Scenario.urlA (lit " one ");
                Scenario.pageAt Scenario.urlB (lit "") ] None)
    as (documents & E & Hc & _).
  - repeat constructor; vm_compute; discriminate.
  - exists documents. split; [exact E | exact Hc].
Defined.

(** X13 (what the sink is given, for any documents): [batchImport] hands
    over one object per document, in order, with content, title, URL and
    document type copied; version and framework are never empty: a
    document without version, or with an empty one, goes out as "4.x", one
    without framework, or with an empty one, as "core"; a version or
    framework that is not empty goes out as it is. *)
Theorem batchImport_objects_defaults (now : Z) (documents : list Doc.t) :
  Forall2 (fun doc o =>
             SinkObject.content o = Doc.content doc /\
             SinkObject.title o = Doc.title doc /\
             SinkObject.url o = Doc.url doc /\
             SinkObject.docType o = Doc.docType doc /\
             SinkObject.version o <> [] /\
             SinkObject.framework o <> [] /\
             (forall v, Doc.version doc = Some v -> v <> [] ->
                        SinkObject.version o = v) /\
             (forall f, Doc.framework doc = Some f -> f <> [] ->
                        SinkObject.framework o = f) /\
             (Doc.version doc = None -> SinkObject.version o = lit "4.x") /\
             (Doc.framework doc = None -> SinkObject.framework o = lit "core") /\
             (Doc.version doc = Some [] -> SinkObject.version o = lit "4.x") /\
             (Doc.framework doc = Some [] ->
              SinkObject.framework o = lit "core"))
          documents (batchImport_objects now documents).
Proof.
  unfold batchImport_objects.
  induction documents as [| doc documents IH]; cbn [map]; constructor;
    [| exact IH].
  cbn [SinkObject.content SinkObject.title SinkObject.url SinkObject.docType
       SinkObject.version SinkObject.framework].
  assert (forall (field : option str) (dflt : str),
             dflt <> [] ->
             or_else (default [] field) dflt <> [] /\
             (forall v, field = Some v -> v <> [] ->
                        or_else (default [] field) dflt = v) /\
             (field = None -> or_else (default [] field) dflt = dflt) /\
             (field = Some [] -> or_else (default [] field) dflt = dflt))
    as Hfield.
  { intros field dflt Hd.
    destruct field as [[| c v] |]; cbn [default or_else];
      (split; [| split; [| split]]).
    - exact Hd.
    - intros v Hv. injection Hv as <-. congruence.
    - reflexivity.
    - reflexivity.
    - discriminate.
    - intros v' Hv' _. injection Hv' as <-. reflexivity.
    - discriminate.
    - discriminate.
    - exact Hd.
    - discriminate.
    - reflexivity.
    - discriminate. }
  destruct (Hfield (Doc.version doc) (lit "4.x")) as (Hv1 & Hv2 & Hv3 & Hv4);
    [discriminate |].
  destruct (Hfield (Doc.framework doc) (lit "core")) as (Hf1 & Hf2 & Hf3 & Hf4);
    [discriminate |].
  split; [reflexivity |]. split; [reflexivity |]. split; [reflexivity |].
  split; [reflexivity |]. split; [exact Hv1 |]. split; [exact Hf1 |].
  split; [exact Hv2 |]. split; [exact Hf2 |]. split; [exact Hv3 |].
  split; [exact Hf3 |]. split; [exact Hv4 | exact Hf4].
Qed.

(** ** More on the crawl *)

Section CrawlFilter.

Import Crawler.

Lemma endsWith_suffix (s suf : str) :
  endsWith s suf = true <-> exists pre, s = pre ++ suf.
Proof.
  unfold endsWith. rewrite startsWith_prefix. split.
  - intros [post H]. exists (rev post).
    apply (f_equal (@rev _)) in H.
    rewrite rev_involutive, rev_app_distr, rev_involutive in H. exact H.
  - intros [pre ->]. exists (rev pre). apply rev_app_distr.
Qed.

Lemma hostAllowed_decided (config : ScraperConfig) (hostname : str) :
  match allowedDomains config with
  | Some domains =>
      (0 <? len domains) &&
      negb (existsb (fun domain =>
                       bool_decide (hostname = domain)
                       || endsWith hostname (lit "." ++ domain))
                    domains)
  | None => false
  end = false <-> hostAllowed config hostname.
Proof.
  unfold hostAllowed. destruct (allowedDomains config) as [[| d ds] |].
  - split; [intros _; exact I | reflexivity].
  - change (0 <? len (d :: ds)) with true. cbn [andb].
    rewrite negb_false_iff, existsb_exists. split.
    + intros (domain & Hin & Hm). exists domain. split; [exact Hin |].
      apply orb_true_iff in Hm as [Hm | Hm].
      * left. apply bool_decide_eq_true in Hm. exact Hm.
      * right. apply endsWith_suffix in Hm. exact Hm.
    + intros (domain & Hin & Hm). exists domain. split; [exact Hin |].
      apply orb_true_iff. destruct Hm as [Hm | Hm].
      * left. apply bool_decide_eq_true. exact Hm.
      * right. apply endsWith_suffix. exact Hm.
  - split; [intros _; exact I | reflexivity].
Qed.

Lemma notExcluded_decided (config : ScraperConfig) (url : str) :
  match excludePatterns config with
  | Some patterns => existsb (fun pattern => includes url pattern) patterns
  | None => false
  end = false <-> notExcluded config url.
Proof.
  unfold notExcluded. destruct (excludePatterns config) as [patterns |].
  - rewrite <- not_true_iff_false, existsb_exists. split.
    + intros H pattern Hin Hc. apply H. exists pattern.
      split; [exact Hin | apply includes_Contains; exact Hc].
    + intros H (pattern & Hin & Hc). apply (H pattern Hin).
      apply includes_Contains. exact Hc.
  - split; [intros _; exact I | reflexivity].
Qed.

(** What an accepted URL satisfies. *)
Lemma shouldScrape_accepts (w : World) (self : Scraper) (url : str) :
  shouldScrape w self url = true -> eligible w self url.
Proof.
  unfold shouldScrape, eligible. intros H.
  destruct (hostnameOf w url) as [hostname |]; [| discriminate].
  exists hostname. split; [reflexivity |].
  destruct (bool_decide (url ∈ visited self)) eqn:Ev; [discriminate |].
  apply bool_decide_eq_false in Ev. split; [exact Ev |].
  pose proof (hostAllowed_decided (config self) hostname) as Ha.
  pose proof (notExcluded_decided (config self) url) as He.
  match type of Ha with ?a = false <-> _ => destruct a end; [discriminate |].
  match type of He with ?e = false <-> _ => destruct e end; [discriminate |].
  split; [apply Ha | apply He]; reflexivity.
Qed.

End CrawlFilter.

(** X14 (the filter): [shouldScrape] accepts a URL exactly when the URL
    parses, is not in the visited set, has a host that is an allowed
    domain or a subdomain of one (when a non-empty allow-list is
    configured), and contains none of the exclude patterns. *)
Theorem shouldScrape_eligible (w : Crawler.World) (self : Crawler.Scraper)
    (url : str) :
  Crawler.shouldScrape w self url = true <-> eligible w self url.
Proof.
  unfold Crawler.shouldScrape, eligible.
  destruct (Crawler.hostnameOf w url) as [hostname |].
  - pose proof (hostAllowed_decided (Crawler.config self) hostname) as Ha.
    pose proof (notExcluded_decided (Crawler.config self) url) as He.
    destruct (bool_decide (url ∈ Crawler.visited self)) eqn:Ev.
    + apply bool_decide_eq_true in Ev. split; [discriminate |].
      intros (h & _ & Hv & _). contradiction.
    + apply bool_decide_eq_false in Ev.
      match type of Ha with ?a = false <-> _ => destruct a end;
        match type of He with ?e = false <-> _ => destruct e end;
        split; intros H; try discriminate; try reflexivity.
      * destruct H as (h & Hh & _ & Hall & _). injection Hh as <-.
        apply Ha in Hall. discriminate.
      * destruct H as (h & Hh & _ & Hall & _). injection Hh as <-.
        apply Ha in Hall. discriminate.
      * destruct H as (h & Hh & _ & _ & Hex). injection Hh as <-.
        apply He in Hex. discriminate.
      * exists hostname. split; [reflexivity |]. split; [exact Ev |].
        split; [apply Ha | apply He]; reflexivity.
  - split; [discriminate |]. intros (h & Hh & _). discriminate.
Qed.

(** A subdomain of the allowed domain passes, a look-alike host does not. *)
Lemma shouldScrape_eligible_witness :
  let config :=
    {| Crawler.baseUrl := lit "https://docs.example.com";
       Crawler.sitemapUrl := None; Crawler.maxDepth := None;
       Crawler.maxPages := None;
       Crawler.allowedDomains := Some [lit "example.com"];
       Crawler.excludePatterns := Some [lit "/search"];
       Crawler.delayMs := None; Crawler.respectRobotsTxt := None |} in
  let w := {| Crawler.hostnameOf := Scenario.anyHost;
              Crawler.fetch := fun _ => Crawler.NetworkError;
              Crawler.render := fun _ _ => Crawler.Failed |} in
  eligible w (Crawler.new config) Scenario.urlA.
Proof.
  intros config w. apply shouldScrape_eligible. vm_compute. reflexivity.
Defined.

Section CrawlRun.

Import Crawler.

Variable w : World.

Lemma emitted_url (self : Scraper) (n : nat) (url : str) (page : Page.t) :
  emitted w self n url = Some page -> Page.url page = url.
Proof.
  unfold emitted, scrapePage. destruct (render w n url); [discriminate |].
  cbn [fst]. intros H. injection H as <-. reflexivity.
Qed.

Lemma newPages_cons (self : Scraper) (n : nat) (url : str) (urls : list str) :
  newPages w self n (url :: urls) =
  match emitted w self n url with
  | Some page => page :: newPages w self (S n) urls
  | None => newPages w self (S n) urls
  end.
Proof.
  unfold newPages. cbn [imap].
  replace (n + 0)%nat with n by lia.
  assert (imap ((fun i u => emitted w self (n + i) u) ∘ S) urls
          = imap (fun i u => emitted w self (S n + i) u) urls) as ->.
  { apply imap_ext. intros i u _. unfold compose. f_equal. lia. }
  destruct (emitted w self n url); reflexivity.
Qed.

Lemma newPages_independent (self self' : Scraper) (urls : list str) :
  forall n, newPages w self n urls = newPages w self' n urls.
Proof.
  induction urls as [| url urls IH]; intros n; [reflexivity |].
  rewrite !newPages_cons, (emitted_independent w self self'), IH.
  reflexivity.
Qed.

(** One page task: it fails and changes nothing, or it returns a page for
    the URL and marks the URL visited. *)
Lemma scrapePage_cases (self : Scraper) (n : nat) (url : str) :
  (emitted w self n url = None /\ scrapePage w self n url = (None, self)) \/
  (exists page,
      emitted w self n url = Some page /\
      scrapePage w self n url =
        (Some page, {| config := config self;
                       visited := {[ url ]} ∪ visited self;
                       results := results self |})).
Proof.
  unfold emitted, scrapePage. destruct (render w n url).
  - left. split; reflexivity.
  - right. eexists. split; reflexivity.
Qed.

Lemma newPages_urls (self : Scraper) (urls : list str) :
  forall n, map Page.url (newPages w self n urls) `sublist_of` urls.
Proof.
  induction urls as [| url urls IH]; intros n; [constructor |].
  rewrite newPages_cons.
  destruct (emitted w self n url) as [page |] eqn:E.
  - cbn [map]. rewrite (emitted_url _ _ _ _ E). apply sublist_skip, IH.
  - apply sublist_cons, IH.
Qed.

Lemma scrapeEach_config (urls : list str) :
  forall self n, config (scrapeEach w self n urls) = config self.
Proof.
  induction urls as [| url urls IH]; intros self n; cbn [scrapeEach];
    [reflexivity |].
  destruct (scrapePage_cases self n url) as [[_ ->] | (page & _ & ->)];
    rewrite IH; reflexivity.
Qed.

(** The visited set grows by the URLs of the pages appended. *)
Lemma scrapeEach_visited (urls : list str) :
  forall self n,
    visited (scrapeEach w self n urls) =
    visited self ∪ list_to_set (map Page.url (newPages w self n urls)).
Proof.
  induction urls as [| url urls IH]; intros self n; cbn [scrapeEach].
  - cbn. set_solver.
  - rewrite newPages_cons.
    destruct (scrapePage_cases self n url) as [[-> ->] | (page & E & ->)].
    + rewrite IH. reflexivity.
    + rewrite E, IH. cbn [visited map list_to_set].
      rewrite (emitted_url _ _ _ _ E).
      rewrite (newPages_independent _ self).
      set_solver.
Qed.

Lemma scrapeEach_newPages (urls : list str) (self : Scraper) (n : nat) :
  results (scrapeEach w self n urls) = results self ++ newPages w self n urls.
Proof. apply scrapeEach_results. Qed.

Lemma slice_prefix {A : Type} (l : list A) (m : Z) :
  0 <= m -> slice l 0 m = take (Z.to_nat m) l.
Proof.
  intros Hm. unfold slice, rel_index.
  assert (0 <= len l) by (unfold len; lia).
  change (0 <? 0) with false. cbn iota.
  destruct (Z.ltb_spec m 0); [lia |].
  replace (Z.min 0 (len l)) with 0 by lia. cbn [Z.to_nat drop].
  destruct (Z.le_gt_cases m (len l)).
  - assert (m <= len l) as Hle by lia.
    rewrite (Z.min_l m (len l) Hle), Z.sub_0_r. reflexivity.
  - assert (len l <= m) as Hle by lia.
    rewrite (Z.min_r m (len l) Hle), Z.sub_0_r.
    change (drop (Z.to_nat 0) l) with l.
    unfold len in *.
    rewrite (take_ge l (Z.to_nat (Z.of_nat (length l)))) by lia.
    rewrite (take_ge l (Z.to_nat m)) by lia.
    reflexivity.
Qed.

(** With a non-negative page limit the scheduled URLs are the first
    [maxPages] of those that pass the filter. *)
Lemma scheduled_take (self : Scraper) (urls : list str) :
  0 <= cfgMaxPages (config self) ->
  scheduled w self urls =
  take (Z.to_nat (cfgMaxPages (config self)))
       (List.filter (shouldScrape w self) urls).
Proof.
  intros Hm. unfold scheduled.
  destruct (Z.ltb_spec (cfgMaxPages (config self))
              (len (List.filter (shouldScrape w self) urls))).
  - apply slice_prefix. exact Hm.
  - symmetry. apply take_ge. unfold len in *. lia.
Qed.

Lemma scheduled_sublist (self : Scraper) (urls : list str) :
  scheduled w self urls `sublist_of` List.filter (shouldScrape w self) urls.
Proof.
  unfold scheduled. destruct (_ <? _); [| reflexivity].
  unfold slice. etransitivity; [apply sublist_take | apply sublist_drop].
Qed.

End CrawlRun.

(** X15 (page limit): with a page limit that is not negative, the URLs a
    run goes through are the first [maxPages] sitemap locations that pass
    the filter, so the run adds at most [maxPages] pages to the results. *)
Theorem scrape_page_limit (w : Crawler.World) (self : Crawler.Scraper)
    (pages : list Page.t) :
  0 <= Crawler.cfgMaxPages (Crawler.config self) ->
  fst (Crawler.scrape w self) = Crawler.Returned pages ->
  exists new,
    pages = Crawler.results self ++ new /\
    len new <= Crawler.cfgMaxPages (Crawler.config self).
Proof.
  intros Hm. unfold Crawler.scrape.
  destruct (Crawler.fetchSitemap w _) as [urls |]; [| discriminate].
  cbn [fst]. intros H. injection H as <-.
  rewrite (scrapeEach_newPages w _ self 0%nat).
  eexists. split; [reflexivity |].
  pose proof (newPages_urls w self (Crawler.scheduled w self urls) 0) as Hsub.
  apply sublist_length in Hsub. rewrite length_map in Hsub.
  rewrite (scheduled_take w self urls Hm), length_take in Hsub.
  rewrite (scheduled_take w self urls Hm).
  unfold len. lia.
Qed.

(** Three locations, a limit of two pages. *)
Lemma scrape_page_limit_witness :
  let config :=
    {| Crawler.baseUrl := lit "https://docs.example.com";
       Crawler.sitemapUrl := None; Crawler.maxDepth := None;
       Crawler.maxPages := Some 2;
       Crawler.allowedDomains := None; Crawler.excludePatterns := None;
       Crawler.delayMs := None; Crawler.respectRobotsTxt := None |} in
  let w := {| Crawler.hostnameOf := Scenario.anyHost;
              Crawler.fetch := fun _ => Crawler.Response true 200 Scenario.threeSitemap;
              Crawler.render := fun _ _ => Scenario.rendered (Some (lit "text")) |} in
  exists pages new,
    fst (Crawler.scrape w (Crawler.new config)) = Crawler.Returned pages /\
    pages = [] ++ new /\ len new <= 2.
Proof.
  intros config w.
  destruct (fst (Crawler.scrape w (Crawler.new config))) as [pages |] eqn:E;
    [| vm_compute in E; discriminate E].
  destruct (scrape_page_limit w (Crawler.new config) pages) as (new & Hp & Hn);
    [vm_compute; discriminate | exact E |].
  exists pages, new. split; [reflexivity |]. split; assumption.
Defined.

(** X16 (what a run emits): the pages a run adds have URLs that are
    sitemap locations accepted by the filter as the scraper stood at the
    start of the run, and they come in the order of the sitemap. *)
Theorem scrape_emits_eligible_in_order (w : Crawler.World)
    (self : Crawler.Scraper) (ok : bool) (status : Z) (xml : str)
    (pages : list Page.t) :
  Crawler.fetch w (Crawler.sitemapAddress (Crawler.config self))
    = Crawler.Response ok status xml ->
  fst (Crawler.scrape w self) = Crawler.Returned pages ->
  exists new,
    pages = Crawler.results self ++ new /\
    map Page.url new `sublist_of` Crawler.locScan 0 xml /\
    Forall (fun page => eligible w self (Page.url page)) new.
Proof.
  intros Hfetch. unfold Crawler.scrape, Crawler.fetchSitemap.
  rewrite Hfetch. cbn [fst]. intros H. injection H as <-.
  rewrite (scrapeEach_newPages w _ self 0%nat).
  eexists. split; [reflexivity |].
  pose proof (newPages_urls w self
                (Crawler.scheduled w self (Crawler.locScan 0 xml)) 0) as Hsub.
  pose proof (scheduled_sublist w self (Crawler.locScan 0 xml)) as Hsched.
  split.
  - etransitivity; [exact Hsub |]. etransitivity; [exact Hsched |].
    apply filter_sublist.
  - apply List.Forall_forall. intros page Hin.
    apply shouldScrape_accepts.
    assert (In (Page.url page)
               (List.filter (Crawler.shouldScrape w self) (Crawler.locScan 0 xml)))
      as Hf.
    { apply list_elem_of_In. eapply sublist_subseteq; [exact Hsched |].
      eapply sublist_subseteq; [exact Hsub |].
      apply list_elem_of_In. apply List.in_map. exact Hin. }
    apply List.filter_In in Hf. apply Hf.
Qed.

(** The run over the three-location sitemap with one failing page. *)
Lemma scrape_emits_eligible_in_order_witness :
  exists new,
    map Page.url new `sublist_of` Crawler.locScan 0 Scenario.threeSitemap /\
    Forall (fun page =>
              eligible Scenario.mixedWorld (Crawler.new Scenario.plainConfig)
                       (Page.url page)) new.
Proof.
  destruct (fst (Crawler.scrape Scenario.mixedWorld
                   (Crawler.new Scenario.plainConfig))) as [pages |] eqn:E;
    [| vm_compute in E; discriminate E].
  destruct (scrape_emits_eligible_in_order Scenario.mixedWorld
              (Crawler.new Scenario.plainConfig) true 200 Scenario.threeSitemap
              pages eq_refl E) as (new & _ & Hsub & Hel).
  exists new. split; assumption.
Defined.

Section CrawlState.

Import Crawler.

(** A run that returns: what it returns and how it leaves the scraper. *)
Lemma scrape_returned (w : World) (self : Scraper) (pages : list Page.t) :
  fst (scrape w self) = Returned pages ->
  exists locations new,
    fetchSitemap w (sitemapAddress (config self)) = Returned locations /\
    new = newPages w self 0 (scheduled w self locations) /\
    pages = results self ++ new /\
    results (snd (scrape w self)) = pages /\
    config (snd (scrape w self)) = config self /\
    visited (snd (scrape w self))
      = visited self ∪ list_to_set (map Page.url new).
Proof.
  unfold scrape.
  destruct (fetchSitemap w (sitemapAddress (config self))) as [urls |];
    [| discriminate].
  cbn [fst snd]. intros H. injection H as <-.
  exists urls, (newPages w self 0 (scheduled w self urls)).
  split; [reflexivity |]. split; [reflexivity |].
  split; [apply scrapeEach_newPages |]. split; [reflexivity |].
  split; [apply scrapeEach_config | apply scrapeEach_visited].
Qed.

End CrawlState.

(** X17 (visited set): a run leaves the configuration alone and adds to
    the visited set exactly the URLs of the pages it added to the results;
    a URL whose page failed is not marked as visited. *)
Theorem scrape_visited (w : Crawler.World) (self : Crawler.Scraper)
    (pages : list Page.t) :
  fst (Crawler.scrape w self) = Crawler.Returned pages ->
  exists new,
    pages = Crawler.results self ++ new /\
    Crawler.results (snd (Crawler.scrape w self)) = pages /\
    Crawler.config (snd (Crawler.scrape w self)) = Crawler.config self /\
    Crawler.visited (snd (Crawler.scrape w self))
      = Crawler.visited self ∪ list_to_set (map Page.url new).
Proof.
  intros H.
  destruct (scrape_returned w self pages H)
    as (xml & new & _ & _ & Hp & Hr & Hc & Hv).
  exists new. repeat split; assumption.
Qed.

(** Page [b] fails and stays out of the visited set. *)
Lemma scrape_visited_witness :
  Scenario.urlA ∈ Crawler.visited
    (snd (Crawler.scrape Scenario.mixedWorld (Crawler.new Scenario.plainConfig))) /\
  Scenario.urlB ∉ Crawler.visited
    (snd (Crawler.scrape Scenario.mixedWorld (Crawler.new Scenario.plainConfig))).
Proof.
  destruct (fst (Crawler.scrape Scenario.mixedWorld
                   (Crawler.new Scenario.plainConfig))) as [pages |] eqn:E;
    [| vm_compute in E; discriminate E].
  destruct (scrape_visited Scenario.mixedWorld
              (Crawler.new Scenario.plainConfig) pages E)
    as (new & Hp & _ & _ & ->).
  vm_compute in E. injection E as <-.
  cbn [Crawler.results Crawler.new app] in Hp. subst new.
  cbn [map Scenario.pageAt Page.url list_to_set Crawler.new Crawler.visited].
  split.
  - set_solver.
  - assert (Scenario.urlB <> Scenario.urlA) by (vm_compute; discriminate).
    assert (Scenario.urlB <> Scenario.urlC) by (vm_compute; discriminate).
    set_solver.
Defined.

(** X18 (a second run on the same scraper): when [scrape] is called again
    on a scraper, in whatever world, the pages of the first run stay in
    the results and no page is added for a URL that already got a page in
    the first run. *)
Theorem scrape_again_no_repeat (w1 w2 : Crawler.World)
    (self : Crawler.Scraper) (pages1 pages2 : list Page.t) :
  fst (Crawler.scrape w1 self) = Crawler.Returned pages1 ->
  fst (Crawler.scrape w2 (snd (Crawler.scrape w1 self)))
    = Crawler.Returned pages2 ->
  exists new1 new2,
    pages1 = Crawler.results self ++ new1 /\
    pages2 = pages1 ++ new2 /\
    forall page1 page2,
      In page1 new1 -> In page2 new2 -> Page.url page1 <> Page.url page2.
Proof.
  intros H1 H2.
  destruct (scrape_returned w1 self pages1 H1)
    as (xml1 & new1 & _ & _ & Hp1 & Hr1 & _ & Hv1).
  destruct (scrape_returned w2 _ pages2 H2)
    as (xml2 & new2 & _ & Hn2 & Hp2 & _ & _ & _).
  exists new1, new2. split; [exact Hp1 |].
  split; [rewrite Hp2, Hr1; reflexivity |].
  intros page1 page2 Hin1 Hin2 Heq.
  assert (In (Page.url page2)
             (List.filter (Crawler.shouldScrape w2 (snd (Crawler.scrape w1 self)))
                          xml2)) as Hf.
  { apply list_elem_of_In.
    eapply sublist_subseteq; [apply scheduled_sublist |].
    eapply sublist_subseteq; [apply newPages_urls |].
    rewrite <- Hn2. apply list_elem_of_In. apply List.in_map. exact Hin2. }
  apply List.filter_In in Hf as [_ Hf].
  apply shouldScrape_accepts in Hf as (h & _ & Hnot & _).
  apply Hnot. rewrite Hv1, <- Heq.
  apply elem_of_union_r, elem_of_list_to_set, list_elem_of_In.
  apply List.in_map. exact Hin1.
Qed.

(** The duplicate sitemap scraped twice by one scraper: the second run
    adds nothing. *)
Lemma scrape_again_no_repeat_witness :
  let self := Crawler.new Scenario.plainConfig in
  let w := Scenario.duplicateWorld in
  exists pages1 pages2 new1 new2,
    fst (Crawler.scrape w self) = Crawler.Returned pages1 /\
    fst (Crawler.scrape w (snd (Crawler.scrape w self))) = Crawler.Returned pages2 /\
    pages2 = pages1 ++ new2 /\
    forall page1 page2,
      In page1 new1 -> In page2 new2 -> Page.url page1 <> Page.url page2.
Proof.
  intros self w.
  destruct (fst (Crawler.scrape w self)) as [pages1 |] eqn:E1;
    [| vm_compute in E1; discriminate E1].
  destruct (fst (Crawler.scrape w (snd (Crawler.scrape w self))))
    as [pages2 |] eqn:E2; [| vm_compute in E2; discriminate E2].
  destruct (scrape_again_no_repeat w w self pages1 pages2 E1 E2)
    as (new1 & new2 & _ & Hp2 & Hne).
  exists pages1, pages2, new1, new2. repeat split; assumption.
Defined.

(** ** Reading the sitemap *)

Section Sitemap.

Import Crawler.

Lemma lazyUntil_plain (u rest captured : str) :
  plainLocation u ->
  lazyUntil (lit "</loc>") (u ++ lit "</loc>" ++ rest) captured
  = Some (rev captured ++ u).
Proof.
  intros Hu. revert captured.
  induction Hu as [| c u [Hlt Hc] _ IH]; intros captured.
  - simpl. rewrite app_nil_r. reflexivity.
  - cbn [app lazyUntil].
    change (startsWith (c :: u ++ lit "</loc>" ++ rest) (lit "</loc>"))
      with (Ascii.eqb "<" c && startsWith (u ++ lit "</loc>" ++ rest) (lit "/loc>")).
    assert (Ascii.eqb "<" c = false) as ->
      by (apply Ascii.eqb_neq; congruence).
    cbn [andb]. rewrite Hlt, IH. simpl. rewrite <- app_assoc. reflexivity.
Qed.

Lemma locScan_skip (pre rest : str) :
  locScan (length pre) (pre ++ rest) = locScan 0 rest.
Proof.
  induction pre as [| c pre IH]; [reflexivity | exact IH].
Qed.

(** One [url] element in front of the rest of the document. *)
Lemma locScan_entry (u rest : str) :
  plainLocation u ->
  locScan 0 (lit "<url><loc>" ++ u ++ lit "</loc></url>" ++ rest)
  = u :: locScan 0 rest.
Proof.
  intros Hu.
  change (locScan 0 (lit "<url><loc>" ++ u ++ lit "</loc></url>" ++ rest))
    with (match lazyUntil (lit "</loc>")
                  (u ++ lit "</loc>" ++ (lit "</url>" ++ rest)) [] with
          | Some captured =>
              captured
              :: locScan (5 + length captured + 6 - 1)
                   (lit "loc>" ++ u ++ lit "</loc>" ++ (lit "</url>" ++ rest))
          | None =>
              locScan 0 (lit "loc>" ++ u ++ lit "</loc>" ++ (lit "</url>" ++ rest))
          end).
  rewrite (lazyUntil_plain u _ [] Hu). cbn [rev app].
  f_equal.
  replace (lit "loc>" ++ u ++ lit "</loc>" ++ lit "</url>" ++ rest)
    with ((lit "loc>" ++ u ++ lit "</loc>") ++ (lit "</url>" ++ rest))
    by (rewrite <- !app_assoc; reflexivity).
  replace (5 + length u + 6 - 1)%nat
    with (length (lit "loc>" ++ u ++ lit "</loc>"))
    by (rewrite !length_app; simpl; lia).
  rewrite locScan_skip. reflexivity.
Qed.

Lemma locScan_entries (urls : list str) (tail : str) :
  Forall plainLocation urls ->
  locScan 0
    (concat (map (fun url => lit "<url><loc>" ++ url ++ lit "</loc></url>") urls)
     ++ tail)
  = urls ++ locScan 0 tail.
Proof.
  induction 1 as [| u urls Hu _ IH]; [reflexivity |].
  cbn [map concat]. rewrite <- !app_assoc.
  rewrite (locScan_entry u _ Hu), IH. reflexivity.
Qed.

(** What the lazy capture yields lies before the closing tag, on one
    line. *)
Lemma lazyUntil_captured (close s : str) :
  forall captured found,
    lazyUntil close s captured = Some found ->
    exists u rest,
      found = rev captured ++ u /\ s = u ++ close ++ rest /\
      Forall (fun c => is_line_terminator c = false) u.
Proof.
  induction s as [| c s IH]; intros captured found H; cbn [lazyUntil] in H.
  - destruct (startsWith [] close) eqn:E; [| discriminate].
    injection H as <-. apply startsWith_prefix in E as [rest E].
    exists [], rest. rewrite app_nil_r. repeat split; [exact E | constructor].
  - destruct (startsWith (c :: s) close) eqn:E.
    + injection H as <-. apply startsWith_prefix in E as [rest E].
      exists [], rest. rewrite app_nil_r. repeat split; [exact E | constructor].
    + destruct (is_line_terminator c) eqn:Ec; [discriminate |].
      destruct (IH _ _ H) as (u & rest & -> & -> & Hu).
      exists (c :: u), rest. simpl. rewrite <- app_assoc.
      repeat split. constructor; assumption.
Qed.

Lemma Contains_cons (c : ascii) (s pat : str) :
  Contains s pat -> Contains (c :: s) pat.
Proof.
  intros (pre & post & ->). exists (c :: pre), post. reflexivity.
Qed.

Lemma locScan_found (xml : str) :
  forall skip,
    Forall (fun u =>
              Forall (fun c => is_line_terminator c = false) u /\
              Contains xml (lit "<loc>" ++ u ++ lit "</loc>"))
           (locScan skip xml).
Proof.
  induction xml as [| c xml IH]; intros skip; cbn [locScan]; [constructor |].
  assert (forall k,
             Forall (fun u =>
                       Forall (fun c => is_line_terminator c = false) u /\
                       Contains (c :: xml) (lit "<loc>" ++ u ++ lit "</loc>"))
                    (locScan k xml)) as Htail.
  { intros k. eapply List.Forall_impl; [| apply IH].
    intros u [Hu Hc]. split; [exact Hu | apply Contains_cons; exact Hc]. }
  destruct skip; [| apply Htail].
  destruct (startsWith (c :: xml) (lit "<loc>")) eqn:E; [| apply Htail].
  destruct (lazyUntil (lit "</loc>") (drop 5 (c :: xml)) []) as [u |] eqn:El;
    [| apply Htail].
  constructor; [| apply Htail].
  apply startsWith_prefix in E as [post E].
  rewrite E in El. change (drop 5 (lit "<loc>" ++ post)) with post in El.
  apply lazyUntil_captured in El as (u' & rest & -> & -> & Hu).
  split; [exact Hu |].
  rewrite E. exists [], rest. cbn [rev app]. rewrite <- !app_assoc. reflexivity.
Qed.

End Sitemap.

(** X19 (sitemap round trip): from a sitemap document in the usual layout
    whose locations are single-line texts without an opening angle
    bracket, [fetchSitemap] returns exactly these locations, in order,
    duplicates included, whatever the status of the response. *)
Theorem fetchSitemap_reads_sitemapXml (w : Crawler.World) (address : str)
    (ok : bool) (status : Z) (urls : list str) :
  Forall plainLocation urls ->
  Crawler.fetch w address = Crawler.Response ok status (sitemapXml urls) ->
  Crawler.fetchSitemap w address = Crawler.Returned urls.
Proof.
  intros Hu Hf. unfold Crawler.fetchSitemap. rewrite Hf. f_equal.
  unfold sitemapXml.
  change (Crawler.locScan 0 (lit "<urlset>" ++ ?x))
    with (Crawler.locScan 0 x).
  rewrite (locScan_entries urls _ Hu).
  change (Crawler.locScan 0 (lit "</urlset>")) with (@nil str).
  apply app_nil_r.
Qed.

(** Two locations, one of them twice. *)
Lemma fetchSitemap_reads_sitemapXml_witness :
  let urls := [Scenario.urlA; Scenario.urlB; Scenario.urlA] in
  let w := {| Crawler.hostnameOf := Scenario.anyHost;
              Crawler.fetch := fun _ => Crawler.Response true 200 (sitemapXml urls);
              Crawler.render := fun _ _ => Crawler.Failed |} in
  Crawler.fetchSitemap w (lit "https://docs.example.com/sitemap.xml")
  = Crawler.Returned urls.
Proof.
  intros urls w.
  apply (fetchSitemap_reads_sitemapXml w _ true 200 urls); [| reflexivity].
  repeat constructor; vm_compute; congruence.
Defined.

(** X20 (locations read from any document): whatever the document, each
    location [fetchSitemap] returns is free of line terminators and stands
    in the document between an opening and a closing [loc] tag. *)
Theorem fetchSitemap_locations (w : Crawler.World) (address : str)
    (ok : bool) (status : Z) (xml : str) (urls : list str) :
  Crawler.fetch w address = Crawler.Response ok status xml ->
  Crawler.fetchSitemap w address = Crawler.Returned urls ->
  Forall (fun u =>
            Forall (fun c => Crawler.is_line_terminator c = false) u /\
            Contains xml (lit "<loc>" ++ u ++ lit "</loc>"))
         urls.
Proof.
  intros Hf. unfold Crawler.fetchSitemap. rewrite Hf.
  intros H. injection H as <-. apply locScan_found.
Qed.

(** The error page of the 404 scenario holds no location; the duplicate
    sitemap holds its location twice. *)
Lemma fetchSitemap_locations_witness :
  Forall (fun u =>
            Forall (fun c => Crawler.is_line_terminator c = false) u /\
            Contains Scenario.duplicateSitemap (lit "<loc>" ++ u ++ lit "</loc>"))
         [Scenario.urlA; Scenario.urlA].
Proof.
  apply (fetchSitemap_locations Scenario.duplicateWorld
           (Crawler.sitemapAddress Scenario.plainConfig) true 200
           Scenario.duplicateSitemap).
  - reflexivity.
  - vm_compute. reflexivity.
Defined.

(** X21 (the allow-list of the pipeline): under the configuration [main]
    uses for the ApostropheCMS documentation, a URL is accepted only if
    its host is docs.apostrophecms.org or a subdomain of it; the first
    entry of the list, "apostrophecms.com/docs", contains a slash and so
    admits no host at all. *)
Theorem aposConfig_accepts_only_docs_host (w : Crawler.World)
    (baseUrl url hostname : str) :
  Crawler.hostnameOf w url = Some hostname ->
  ~ In "/"%char hostname ->
  Crawler.shouldScrape w (Crawler.new (Pipeline.aposConfig baseUrl)) url = true ->
  hostname = lit "docs.apostrophecms.org" \/
  exists sub, hostname = sub ++ lit ".docs.apostrophecms.org".
Proof.
  intros Hh Hslash Hs.
  apply shouldScrape_accepts in Hs as (h & Hh' & _ & Hall & _).
  rewrite Hh in Hh'. injection Hh' as <-.
  unfold hostAllowed in Hall. cbn in Hall.
  destruct Hall as (domain & [<- | [<- | []]] & Hm).
  - exfalso. apply Hslash. destruct Hm as [-> | (sub & ->)].
    + vm_compute. tauto.
    + apply in_or_app. right. vm_compute. tauto.
  - destruct Hm as [-> | (sub & ->)]; [left; reflexivity |].
    right. exists sub. reflexivity.
Qed.

(** A page of the default base URL, host apostrophecms.com, is filtered
    out. *)
Lemma aposConfig_accepts_only_docs_host_witness :
  let w := {| Crawler.hostnameOf := fun _ => Some (lit "apostrophecms.com");
              Crawler.fetch := fun _ => Crawler.NetworkError;
              Crawler.render := fun _ _ => Crawler.Failed |} in
  Crawler.shouldScrape w
    (Crawler.new (Pipeline.aposConfig (lit "https://apostrophecms.com/docs")))
    (lit "https://apostrophecms.com/docs/guide/intro.html") = false.
Proof.
  intros w.
  destruct (Crawler.shouldScrape w _ _) eqn:E; [| reflexivity].
  exfalso.
  destruct (aposConfig_accepts_only_docs_host w
              (lit "https://apostrophecms.com/docs")
              (lit "https://apostrophecms.com/docs/guide/intro.html")
              (lit "apostrophecms.com") eq_refl) as [H | (sub & H)].
  - vm_compute. intuition discriminate.
  - exact E.
  - vm_compute in H. discriminate H.
  - apply (f_equal (@rev _)) in H. rewrite rev_app_distr in H.
    vm_compute in H. discriminate H.
Defined.

(** ** The pages of a whole specification *)

Section ImporterPages.

Import OpenAPI.

Variable source : str.

Lemma pageUrls_units (spec : Spec) :
  pageUrls source spec =
  (if hasInfo spec then [infoPageUrl source] else [])
  ++ map (fun unit => operationPageUrl source (fst unit) (snd unit))
         (operationUnits spec)
  ++ map (schemaPageUrl source) (schemas spec).
Proof.
  unfold pageUrls, operationUnits. f_equal. f_equal.
  induction (paths spec) as [| [path keys] items IH]; [reflexivity |].
  cbn [flat_map]. rewrite List.map_app, IH, List.map_map. reflexivity.
Qed.

Lemma operationUnits_elem (spec : Spec) (unit : str * str) :
  unit ∈ operationUnits spec ->
  In (snd unit) OPERATION_KEYS /\
  exists keys, In (fst unit, keys) (paths spec) /\ In (snd unit) keys.
Proof.
  unfold operationUnits. intros H. apply list_elem_of_In in H.
  apply List.in_flat_map in H as ([path keys] & Hitem & H).
  apply List.in_map_iff in H as (method & <- & H).
  apply List.filter_In in H as [Hkey Hvalid].
  apply bool_decide_eq_true in Hvalid. apply list_elem_of_In in Hvalid.
  split; [exact Hvalid |]. exists keys. split; assumption.
Qed.

Lemma operationUnits_NoDup (spec : Spec) :
  NoDup (map fst (paths spec)) ->
  Forall (fun item => NoDup (snd item) /\ ~ In "-"%char (fst item)) (paths spec) ->
  NoDup (operationUnits spec).
Proof.
  unfold operationUnits.
  induction (paths spec) as [| [path keys] items IH]; intros Hnd Hall;
    [constructor |].
  cbn [flat_map]. cbn [map fst] in Hnd.
  apply NoDup_cons in Hnd as [Hfresh Hnd].
  apply List.Forall_cons_iff in Hall as [[Hkeys _] Hall].
  apply NoDup_app. split; [| split].
  - apply (NoDup_fmap_2 (pair path)).
    eapply sublist_NoDup; [exact Hkeys | apply filter_sublist].
  - intros [p m] H1 H2. apply Hfresh.
    apply list_elem_of_In, List.in_map_iff in H1 as (m' & Hpm & _).
    injection Hpm as <- <-.
    apply list_elem_of_In, List.in_flat_map in H2 as ([p' keys'] & Hitem & H2).
    apply List.in_map_iff in H2 as (m2 & Hpm & _). injection Hpm as Hp _.
    apply list_elem_of_In. rewrite <- Hp. apply (List.in_map fst _ _ Hitem).
  - apply IH; assumption.
Qed.

Lemma info_not_operation (path method : str) :
  In method OPERATION_KEYS ->
  infoPageUrl source <> operationPageUrl source path method.
Proof.
  unfold infoPageUrl, operationPageUrl, OPERATION_KEYS. cbn [In].
  intros Hm H. apply app_inv_head in H.
  repeat (destruct Hm as [<- | Hm]; [discriminate H |]). contradiction.
Qed.

Lemma info_not_schema (name : str) :
  infoPageUrl source <> schemaPageUrl source name.
Proof.
  unfold infoPageUrl, schemaPageUrl. intros H.
  apply app_inv_head in H. discriminate H.
Qed.

Lemma schemaPageUrl_injective (n1 n2 : str) :
  schemaPageUrl source n1 = schemaPageUrl source n2 -> n1 = n2.
Proof.
  unfold schemaPageUrl. intros H.
  apply app_inv_head in H. apply app_inv_head in H. exact H.
Qed.

Lemma operationPageUrl_injective (m1 p1 m2 p2 : str) :
  In m1 OPERATION_KEYS -> In m2 OPERATION_KEYS ->
  ~ In "-"%char p1 -> ~ In "-"%char p2 ->
  operationPageUrl source p1 m1 = operationPageUrl source p2 m2 ->
  m1 = m2 /\ p1 = p2.
Proof.
  unfold operationPageUrl. intros H1 H2 Hp1 Hp2 H.
  apply app_inv_head in H. apply app_inv_head in H.
  destruct (method_prefix_injective _ _ _ _ H1 H2 H) as [Hm Hp].
  split; [exact Hm | apply replace_slash_injective; assumption].
Qed.

Lemma operation_not_schema (m p n : str) :
  In m OPERATION_KEYS ->
  operationPageUrl source p m <> schemaPageUrl source n.
Proof.
  unfold operationPageUrl, schemaPageUrl. intros Hm H.
  apply app_inv_head in H.
  change (lit "#schema-" ++ n) with (lit "#" ++ lit "schema-" ++ n) in H.
  apply app_inv_head in H.
  exact (method_not_schema m _ n Hm H).
Qed.

End ImporterPages.

(** X22 (page URLs of one specification): when no path of the
    specification contains a hyphen (and keys and names are not repeated,
    as in any parsed object), the pages [processOpenAPISpec] returns have
    pairwise distinct URLs: the overview page, every operation page and
    every schema page can be told apart by URL. *)
Theorem pageUrls_distinct (source : str) (spec : OpenAPI.Spec) :
  hyphenFreeSpec spec -> NoDup (OpenAPI.pageUrls source spec).
Proof.
  intros (Hpaths & Hitems & Hschemas).
  rewrite pageUrls_units.
  assert (forall unit, unit ∈ operationUnits spec ->
             In (snd unit) OpenAPI.OPERATION_KEYS /\ ~ In "-"%char (fst unit))
    as Hunit.
  { intros unit Hin.
    destruct (operationUnits_elem spec unit Hin) as (Hkey & keys & Hitem & _).
    split; [exact Hkey |].
    rewrite List.Forall_forall in Hitems. apply (Hitems _ Hitem). }
  apply NoDup_app. split; [| split].
  - destruct (OpenAPI.hasInfo spec); [apply NoDup_singleton | constructor].
  - intros url Hinfo Hrest.
    destruct (OpenAPI.hasInfo spec); [| inversion Hinfo].
    apply list_elem_of_singleton in Hinfo as ->.
    apply elem_of_app in Hrest as [Hin | Hin];
      apply list_elem_of_fmap in Hin as (x & Heq & Hx).
    + destruct (Hunit x Hx) as [Hkey _].
      exact (info_not_operation source _ _ Hkey Heq).
    + exact (info_not_schema source _ Heq).
  - apply NoDup_app. split; [| split].
    + apply NoDup_fmap_2_strong.
      * intros [p1 m1] [p2 m2] H1 H2 Heq.
        destruct (Hunit _ H1) as [Hk1 Hp1], (Hunit _ H2) as [Hk2 Hp2].
        cbn [fst snd] in *.
        destruct (operationPageUrl_injective source m1 p1 m2 p2
                    Hk1 Hk2 Hp1 Hp2 Heq) as [-> ->].
        reflexivity.
      * apply operationUnits_NoDup; assumption.
    + intros url Hop_in Hschema_in.
      apply list_elem_of_fmap in Hop_in as (x & -> & Hx).
      apply list_elem_of_fmap in Hschema_in as (n & Heq & _).
      destruct (Hunit x Hx) as [Hkey _].
      exact (operation_not_schema source _ _ _ Hkey Heq).
    + apply NoDup_fmap_2_strong; [| exact Hschemas].
      intros n1 n2 _ _. apply schemaPageUrl_injective.
Qed.

(** A small specification: overview, three operations, two schemas. *)
Lemma pageUrls_distinct_witness :
  NoDup (OpenAPI.pageUrls (lit "openapi.json")
           {| OpenAPI.hasInfo := true;
              OpenAPI.paths :=
                [ (lit "/pets", [lit "get"; lit "post"; lit "parameters"]);
                  (lit "/pets/{id}", [lit "get"]) ];
              OpenAPI.schemas := [lit "Pet"; lit "Error"] |}).
Proof.
  apply pageUrls_distinct. unfold hyphenFreeSpec.
  cbn [OpenAPI.paths OpenAPI.schemas map fst].
  split; [| split].
  - apply (proj1 (bool_decide_eq_true _)). vm_compute. reflexivity.
  - repeat apply List.Forall_cons; try apply List.Forall_nil; cbn [fst snd];
      (split; [apply (proj1 (bool_decide_eq_true _)); vm_compute; reflexivity
              | vm_compute; intuition discriminate]).
  - apply (proj1 (bool_decide_eq_true _)). vm_compute. reflexivity.
Defined.

(** ** Slugs of section titles *)

Section Slug.

Import LLMs.

Lemma isSlugChar_not_ws (c : ascii) : isSlugChar c = true -> is_ws c = false.
Proof.
  destruct c as [[] [] [] [] [] [] [] []]; vm_compute; congruence.
Qed.

Lemma isSlugChar_source (c : ascii) :
  isSlugChar c = true -> isSlugSource c = true.
Proof.
  destruct c as [[] [] [] [] [] [] [] []]; vm_compute; congruence.
Qed.

Lemma isSlugSource_char (c : ascii) :
  isSlugSource c = true -> is_ws c = false -> isSlugChar c = true.
Proof.
  destruct c as [[] [] [] [] [] [] [] []]; vm_compute; congruence.
Qed.

Lemma isSlugChar_lower (c : ascii) : isSlugChar c = true -> lower_char c = c.
Proof.
  destruct c as [[] [] [] [] [] [] [] []]; vm_compute; congruence.
Qed.

Lemma replaceRuns_ws_chars (s : str) :
  forall inRun,
    Forall (fun c => isSlugSource c = true) s ->
    Forall (fun c => isSlugChar c = true) (replaceRuns is_ws "-" inRun s).
Proof.
  induction s as [| c s IH]; intros inRun Hs; [constructor |].
  apply List.Forall_cons_iff in Hs as [Hc Hs]. cbn [replaceRuns].
  destruct (is_ws c) eqn:Ew.
  - destruct inRun; [apply IH; assumption |].
    constructor; [reflexivity | apply IH; assumption].
  - constructor; [apply isSlugSource_char; assumption | apply IH; assumption].
Qed.

Lemma replaceRuns_hyphen_chars (s : str) :
  forall inRun,
    Forall (fun c => isSlugChar c = true) s ->
    Forall (fun c => isSlugChar c = true)
           (replaceRuns (fun c => Ascii.eqb c "-") "-" inRun s).
Proof.
  induction s as [| c s IH]; intros inRun Hs; [constructor |].
  apply List.Forall_cons_iff in Hs as [Hc Hs]. cbn [replaceRuns].
  destruct (Ascii.eqb c "-").
  - destruct inRun; [apply IH; assumption |].
    constructor; [reflexivity | apply IH; assumption].
  - constructor; [assumption | apply IH; assumption].
Qed.

Lemma startsWith_hyphen (c : ascii) (s : str) :
  startsWith (c :: s) (lit "-") = Ascii.eqb c "-".
Proof.
  change (startsWith (c :: s) (lit "-")) with (Ascii.eqb "-" c && true).
  rewrite andb_true_r. apply Ascii.eqb_sym.
Qed.

Lemma startsWith_two_hyphens (c : ascii) (s : str) :
  startsWith (c :: s) (lit "--") = Ascii.eqb c "-" && startsWith s (lit "-").
Proof.
  change (startsWith (c :: s) (lit "--"))
    with (Ascii.eqb "-" c && startsWith s (lit "-")).
  rewrite (Ascii.eqb_sym "-" c). reflexivity.
Qed.

(** After the hyphen runs are replaced no two hyphens are adjacent, and
    the result does not start with a hyphen when a run was under way. *)
Lemma replaceRuns_hyphen_single (s : str) :
  forall inRun,
    includes (replaceRuns (fun c => Ascii.eqb c "-") "-" inRun s) (lit "--")
      = false /\
    startsWith (replaceRuns (fun c => Ascii.eqb c "-") "-" true s) (lit "-")
      = false.
Proof.
  induction s as [| c s IH]; intros inRun; [split; reflexivity |].
  cbn [replaceRuns].
  destruct (IH true) as [Hin_t Hst], (IH false) as [Hin_f _].
  destruct (Ascii.eqb c "-") eqn:Ec.
  - split; [| exact Hst].
    destruct inRun; [exact Hin_t |].
    cbn [includes]. rewrite startsWith_two_hyphens, Hst, Hin_t. reflexivity.
  - split.
    + cbn [includes]. rewrite startsWith_two_hyphens, Ec.
      destruct inRun; [exact Hin_f | exact Hin_f].
    + rewrite startsWith_hyphen. exact Ec.
Qed.

Lemma replaceRuns_none (p : ascii -> bool) (d : ascii) (s : str) :
  forall inRun,
    Forall (fun c => p c = false) s -> replaceRuns p d inRun s = s.
Proof.
  induction s as [| c s IH]; intros inRun Hs; [reflexivity |].
  apply List.Forall_cons_iff in Hs as [Hc Hs]. cbn [replaceRuns].
  rewrite Hc, IH by assumption. reflexivity.
Qed.

Lemma replaceRuns_hyphen_fixed (s : str) :
  forall inRun,
    includes s (lit "--") = false ->
    (inRun = true -> startsWith s (lit "-") = false) ->
    replaceRuns (fun c => Ascii.eqb c "-") "-" inRun s = s.
Proof.
  induction s as [| c s IH]; intros inRun Hin Hrun; [reflexivity |].
  cbn [includes] in Hin. apply orb_false_iff in Hin as [Hst Hin].
  rewrite startsWith_two_hyphens in Hst. cbn [replaceRuns].
  destruct (Ascii.eqb c "-") eqn:Ec.
  - apply Ascii.eqb_eq in Ec as ->. cbn [andb] in Hst.
    destruct inRun.
    + specialize (Hrun eq_refl). rewrite startsWith_hyphen in Hrun.
      discriminate Hrun.
    + rewrite IH; [reflexivity | assumption | intros _; exact Hst].
  - rewrite IH; [reflexivity | assumption | discriminate].
Qed.

Lemma trimStart_no_ws (s : str) :
  Forall (fun c => is_ws c = false) s -> trimStart s = s.
Proof.
  destruct 1 as [| c s Hc _]; [reflexivity |]. simpl. rewrite Hc. reflexivity.
Qed.

Lemma trim_no_ws (s : str) :
  Forall (fun c => is_ws c = false) s -> trim s = s.
Proof.
  intros Hs. unfold trim, trimEnd. rewrite (trimStart_no_ws s Hs).
  rewrite trimStart_no_ws; [apply rev_involutive |].
  apply List.Forall_rev. exact Hs.
Qed.

Lemma slug_chars_no_ws (s : str) :
  Forall (fun c => isSlugChar c = true) s ->
  Forall (fun c => is_ws c = false) s.
Proof.
  apply List.Forall_impl. exact isSlugChar_not_ws.
Qed.

End Slug.

Example titleToSlug_keeps_outer_hyphens :
  LLMs.titleToSlug (lit " Hello,  World! ") = lit "-hello-world-".
Proof. reflexivity. Qed.

Example titleToSlug_merges_hyphens :
  LLMs.titleToSlug (lit "A -- B / c") = lit "a-b-c".
Proof. reflexivity. Qed.

(** X23 (slugs): the slug of a title holds only lower-case letters, digits
    and hyphens, never two hyphens in a row, and is its own slug.  The
    final [trim] changes nothing: a hyphen that stands for leading or
    trailing white space of the title stays. *)
Theorem titleToSlug_shape (title : str) :
  let slug := LLMs.titleToSlug title in
  Forall (fun c => isSlugChar c = true) slug /\
  ~ Contains slug (lit "--") /\
  LLMs.titleToSlug slug = slug /\
  slug = LLMs.replaceRuns (fun c => Ascii.eqb c "-") "-" false
           (LLMs.replaceRuns is_ws "-" false
              (List.filter LLMs.isSlugSource (toLowerCase title))).
Proof.
  intros slug.
  set (body := LLMs.replaceRuns (fun c => Ascii.eqb c "-") "-" false
                 (LLMs.replaceRuns is_ws "-" false
                    (List.filter LLMs.isSlugSource (toLowerCase title)))).
  assert (slug = trim body) as Hslug by reflexivity. clearbody slug. subst slug.
  assert (Forall (fun c => isSlugChar c = true) body) as Hchars.
  { apply replaceRuns_hyphen_chars, replaceRuns_ws_chars.
    apply List.Forall_forall. intros c Hc.
    apply List.filter_In in Hc. apply Hc. }
  assert (includes body (lit "--") = false) as Hsingle
    by apply replaceRuns_hyphen_single.
  rewrite (trim_no_ws body (slug_chars_no_ws body Hchars)).
  split; [exact Hchars |].
  split; [apply includes_not_Contains; exact Hsingle |].
  split; [| reflexivity].
  unfold LLMs.titleToSlug.
  assert (toLowerCase body = body) as ->.
  { unfold toLowerCase. rewrite <- (List.map_id body) at 2.
    apply List.map_ext_Forall.
    eapply List.Forall_impl; [| exact Hchars]. exact isSlugChar_lower. }
  assert (List.filter LLMs.isSlugSource body = body) as ->.
  { apply List.forallb_filter_id. apply List.forallb_forall.
    intros c Hc. apply isSlugChar_source.
    rewrite List.Forall_forall in Hchars. apply Hchars. exact Hc. }
  rewrite (replaceRuns_none is_ws "-" body false (slug_chars_no_ws body Hchars)).
  rewrite (replaceRuns_hyphen_fixed body false Hsingle) by discriminate.
  apply trim_no_ws, slug_chars_no_ws, Hchars.
Qed.

(** ** Environment access *)

(** X24 (required variables): [requireEnv] returns the variable when it is
    set to a non-empty text; a variable that is unset or empty gives the
    default when that is non-empty, and raises otherwise; what it returns
    is never empty. *)
Theorem requireEnv_cases (env : gmap str str) (name : str)
    (defaultValue : option str) :
  (forall v, env !! name = Some v -> v <> [] ->
             Env.requireEnv env name defaultValue = Crawler.Returned v) /\
  (env !! name = None \/ env !! name = Some (lit "") ->
   forall d, defaultValue = Some d -> d <> [] ->
             Env.requireEnv env name defaultValue = Crawler.Returned d) /\
  (env !! name = None \/ env !! name = Some (lit "") ->
   defaultValue = None \/ defaultValue = Some (lit "") ->
   Env.requireEnv env name defaultValue = Crawler.Threw) /\
  (forall v, Env.requireEnv env name defaultValue = Crawler.Returned v ->
             v <> []) /\
  (forall v, v <> [] ->
             Env.requireEnv (<[name := v]> env) name defaultValue
             = Crawler.Returned v).
Proof.
  unfold Env.requireEnv.
  assert (forall v : str, v <> [] -> truthy v = true) as Htruthy
    by (intros [| c v] H; [congruence | reflexivity]).
  unfold str in *.
  split; [| split; [| split; [| split]]].
  - intros v -> Hv. cbn [default]. rewrite (or_else_truthy v _ Hv).
    rewrite (Htruthy v Hv). reflexivity.
  - intros Henv d -> Hd.
    destruct d as [| c d]; [congruence |].
    destruct Henv as [-> | ->]; reflexivity.
  - intros Henv Hd.
    destruct Henv as [-> | ->]; destruct Hd as [-> | ->]; reflexivity.
  - intros v H.
    destruct (truthy (or_else _ _)) eqn:E; [| discriminate].
    injection H as <-. intros Hnil. rewrite Hnil in E. discriminate E.
  - intros v Hv. rewrite lookup_insert_eq. cbn [default].
    rewrite (or_else_truthy v _ Hv), (Htruthy v Hv). reflexivity.
Qed.

(** The base URL of the pipeline: unset, then the default of [main]. *)
Lemma requireEnv_cases_witness :
  Env.requireEnv ∅ (lit "DOCS_BASE_URL") (Some (lit "https://apostrophecms.com/docs"))
  = Crawler.Returned (lit "https://apostrophecms.com/docs").
Proof.
  apply (requireEnv_cases ∅ (lit "DOCS_BASE_URL")
           (Some (lit "https://apostrophecms.com/docs"))).
  - left. apply lookup_empty.
  - reflexivity.
  - discriminate.
Defined.

(** ** The storage client *)

(** X25 (address of the storage service): for an address that starts with
    "http://" or "https://", scheme and host of the client configuration
    put together with "://" give the address back; an address without
    either prefix that does not start with "https" is taken whole as host
    under the scheme "http". *)
Theorem clientConfig_address (rest : str) (key : option str) :
  (let config := WeaviateClient.clientConfig (lit "https://" ++ rest) key in
   WeaviateClient.scheme config = lit "https" /\
   WeaviateClient.host config = rest) /\
  (let config := WeaviateClient.clientConfig (lit "http://" ++ rest) key in
   WeaviateClient.scheme config = lit "http" /\
   WeaviateClient.host config = rest) /\
  (startsWith rest (lit "http") = false ->
   let config := WeaviateClient.clientConfig rest key in
   WeaviateClient.scheme config = lit "http" /\
   WeaviateClient.host config = rest).
Proof.
  split; [| split].
  - split; reflexivity.
  - split; reflexivity.
  - intros H. unfold WeaviateClient.clientConfig, WeaviateClient.stripScheme.
    cbn [WeaviateClient.scheme WeaviateClient.host].
    assert (forall suffix, startsWith rest (lit "http" ++ suffix) = false) as Hs.
    { intros suffix.
      destruct (startsWith rest (lit "http" ++ suffix)) eqn:E; [| reflexivity].
      apply startsWith_prefix in E as [post ->].
      rewrite <- app_assoc in H.
      assert (startsWith (lit "http" ++ suffix ++ post) (lit "http") = true)
        as Ht by reflexivity.
      congruence. }
    pose proof (Hs (lit "s")) as H1. pose proof (Hs (lit "://")) as H2.
    pose proof (Hs (lit "s://")) as H3.
    change (lit "http" ++ lit "s") with (lit "https") in H1.
    change (lit "http" ++ lit "://") with (lit "http://") in H2.
    change (lit "http" ++ lit "s://") with (lit "https://") in H3.
    rewrite H1, H2, H3. split; reflexivity.
Qed.

(** A local address without scheme. *)
Lemma clientConfig_address_witness :
  WeaviateClient.host (WeaviateClient.clientConfig (lit "localhost:8080") None)
  = lit "localhost:8080".
Proof.
  apply (clientConfig_address (lit "localhost:8080") None).
  vm_compute. reflexivity.
Defined.

(** X26 (the client is set up once): after an [initialize] that returned,
    the client is initialized and [getClient] returns its configuration;
    every later [initialize], with whatever address, key or state of the
    service, returns at once and changes nothing. *)
Theorem initialize_once (service service' : WeaviateClient.Service)
    (self : WeaviateClient.Client) (url url' : str) (key key' : option str) :
  let self1 := snd (WeaviateClient.initialize service self url key) in
  fst (WeaviateClient.initialize service self url key) = Crawler.Returned tt ->
  WeaviateClient.initialized self1 = true /\
  (WeaviateClient.initialized self = false ->
   WeaviateClient.getClient self1
   = Crawler.Returned (WeaviateClient.clientConfig url key)) /\
  WeaviateClient.initialize service' self1 url' key'
  = (Crawler.Returned tt, self1).
Proof.
  intros self1. subst self1.
  destruct (WeaviateClient.initialize service self url key) as [r s1] eqn:E.
  cbn [fst snd]. intros ->.
  unfold WeaviateClient.initialize in E.
  destruct (WeaviateClient.initialized self) eqn:Ei.
  - injection E as <-. split; [exact Ei |]. split; [discriminate |].
    unfold WeaviateClient.initialize. rewrite Ei. reflexivity.
  - destruct (WeaviateClient.builds service _); [| discriminate].
    destruct (_ && _); [| discriminate]. injection E as <-.
    split; [reflexivity |]. split; reflexivity.
Qed.

(** First a reachable service, then another address on a dead one. *)
Lemma initialize_once_witness :
  let up := {| WeaviateClient.builds := fun _ => true;
               WeaviateClient.connects := fun _ => true;
               WeaviateClient.schemaReady := fun _ => true;
               WeaviateClient.runBatch := fun _ _ => None |} in
  let down := {| WeaviateClient.builds := fun _ => true;
                 WeaviateClient.connects := fun _ => false;
                 WeaviateClient.schemaReady := fun _ => false;
                 WeaviateClient.runBatch := fun _ _ => None |} in
  let self1 := snd (WeaviateClient.initialize up WeaviateClient.fresh
                      (lit "http://localhost:8080") None) in
  WeaviateClient.initialize down self1 (lit "https://other.example") None
  = (Crawler.Returned tt, self1).
Proof.
  intros up down self1.
  apply (initialize_once up down WeaviateClient.fresh
           (lit "http://localhost:8080") (lit "https://other.example") None None).
  reflexivity.
Defined.

(** X27 (a failed set-up): when [initialize] raises on a client that was
    not initialized, the client stays uninitialized.  If the client object
    was built (the connection test or the schema set-up raised), the
    client keeps it: [getClient] no longer raises and [batchImport] goes
    to the service with the documents.  If building the client object
    raised, the client is as it was before the call: on a client that
    never got a client object, [getClient] and [batchImport] still raise.
    In both cases a later [initialize] tries again with its own
    arguments. *)
Theorem initialize_failure_keeps_client (service service' : WeaviateClient.Service)
    (self : WeaviateClient.Client) (url url' : str) (key key' : option str)
    (now : Z) (documents : list Doc.t) :
  let self1 := snd (WeaviateClient.initialize service self url key) in
  let config := WeaviateClient.clientConfig url key in
  let config' := WeaviateClient.clientConfig url' key' in
  fst (WeaviateClient.initialize service self url key) = Crawler.Threw ->
  WeaviateClient.initialized self1 = false /\
  (WeaviateClient.builds service config = true ->
   WeaviateClient.getClient self1 = Crawler.Returned config /\
   (WeaviateClient.runBatch service' config (batchImport_objects now documents)
      = None <->
    WeaviateClient.batchImport service' self1 now documents = Crawler.Threw)) /\
  (WeaviateClient.builds service config = false ->
   self1 = self /\
   (WeaviateClient.client self = None ->
    WeaviateClient.getClient self1 = Crawler.Threw /\
    WeaviateClient.batchImport service' self1 now documents = Crawler.Threw)) /\
  (WeaviateClient.builds service' config' = true ->
   WeaviateClient.connects service' config' = true ->
   WeaviateClient.schemaReady service' config' = true ->
   WeaviateClient.initialize service' self1 url' key'
   = (Crawler.Returned tt,
      {| WeaviateClient.client := Some config';
         WeaviateClient.initialized := true |})).
Proof.
  intros self1 config config'. subst self1 config config'.
  destruct (WeaviateClient.initialize service self url key) as [r s1] eqn:E.
  cbn [fst snd]. intros ->.
  unfold WeaviateClient.initialize in E.
  destruct (WeaviateClient.initialized self) eqn:Ei; [discriminate |].
  destruct (WeaviateClient.builds service _) eqn:Eb.
  - destruct (_ && _); [discriminate |]. injection E as <-.
    split; [reflexivity |]. split; [intros _ | split; [discriminate |]].
    + split; [reflexivity |].
      unfold WeaviateClient.batchImport.
      cbn [WeaviateClient.getClient WeaviateClient.client].
      destruct (WeaviateClient.runBatch service' _ _) as [result |].
      * split; [discriminate |]. destruct (0 <? _); discriminate.
      * split; reflexivity.
    + intros Hb Hc Hs. unfold WeaviateClient.initialize.
      cbn [WeaviateClient.initialized]. rewrite Hb, Hc, Hs. reflexivity.
  - injection E as <-.
    split; [exact Ei |]. split; [discriminate |]. split.
    + intros _. split; [reflexivity |]. intros Hnone.
      unfold WeaviateClient.batchImport, WeaviateClient.getClient.
      rewrite Hnone. split; reflexivity.
    + intros Hb Hc Hs. unfold WeaviateClient.initialize.
      rewrite Ei, Hb, Hc, Hs. reflexivity.
Qed.

(** A service that is down, and a library that refuses the address. *)
Lemma initialize_failure_keeps_client_witness :
  let down := {| WeaviateClient.builds := fun _ => true;
                 WeaviateClient.connects := fun _ => false;
                 WeaviateClient.schemaReady := fun _ => false;
                 WeaviateClient.runBatch := fun _ _ => None |} in
  let refused := {| WeaviateClient.builds :=
                      fun config => truthy (WeaviateClient.host config);
                    WeaviateClient.connects := fun _ => true;
                    WeaviateClient.schemaReady := fun _ => true;
                    WeaviateClient.runBatch := fun _ _ => Some [] |} in
  let self1 := snd (WeaviateClient.initialize down WeaviateClient.fresh
                      (lit "http://localhost:8080") None) in
  let self2 := snd (WeaviateClient.initialize refused WeaviateClient.fresh
                      (lit "http://") None) in
  WeaviateClient.getClient WeaviateClient.fresh = Crawler.Threw /\
  WeaviateClient.getClient self1
  = Crawler.Returned
      (WeaviateClient.clientConfig (lit "http://localhost:8080") None) /\
  WeaviateClient.getClient self2 = Crawler.Threw /\
  WeaviateClient.batchImport refused self2 0 [] = Crawler.Threw.
Proof.
  intros down refused self1 self2. split; [reflexivity |]. split.
  - apply (initialize_failure_keeps_client down refused WeaviateClient.fresh
             (lit "http://localhost:8080") (lit "http://localhost:8080")
             None None 0 []); reflexivity.
  - apply (initialize_failure_keeps_client refused refused WeaviateClient.fresh
             (lit "http://") (lit "http://localhost:8080")
             None None 0 []); reflexivity.
Defined.
